(** * t_pg: a marshaling layer between Qt code and libpq

    Shallow embedding of [src/t_pg.h]: the parameter list, the command
    builder, the type decoder, the result cursor and the executor, followed
    by the properties the specification states about them.

    Conventions of the embedding.
    - [uint32_t], [int], [int64_t] values are [Z]; every wrap-around and
      every implicit conversion of the source is written out.
    - [QByteArray] is [list byte]; [QString] is [string].
    - A pointer that may be null is an [option].
    - [qWarning()], [qDebug()] and the libpq submission are events of a
      trace carried by the writer monad [Log].
    - What Qt and libpq compute (codecs, text conversions, the server's
      answer) is not code of this repository: it is a parameter
      ([QtRuntime], [Libpq]) or a model of the documented behaviour. *)

From Stdlib Require Import Strings.String Strings.Ascii Strings.Byte.
From Stdlib Require Import Numbers.DecimalString Numbers.DecimalPos.
From Stdlib Require Import ZArith List Lia Bool.
Import ListNotations.

Local Open Scope string_scope.
Local Close Scope list_scope.
Local Open Scope list_scope.
Local Open Scope Z_scope.

(* ================================================================= *)
(** * Machine integers *)

Definition INT_MAX : Z := 2 ^ 31 - 1.

(** Conversion to [uint32_t]: reduction modulo 2^32. *)
Definition to_uint32 (z : Z) : Z := z mod 2 ^ 32.

(** Conversion of a [uint32_t] to [int], as at the libpq call sites
    ([PQgetisnull (res, row, column)] takes [int]s). *)
Definition int_of_uint32 (z : Z) : Z :=
  if z <? 2 ^ 31 then z else z - 2 ^ 32.

(** [++x] on a [uint32_t]. *)
Definition uint32_incr (z : Z) : Z := to_uint32 (z + 1).

(* ================================================================= *)
(** * Qt values *)

Definition QByteArray : Type := list byte.
Definition QString : Type := string.

(** A byte array written as a literal. *)
Definition bytes (s : string) : QByteArray := list_byte_of_string s.

(** [QDateTime]: [None] is the null date-time [QDateTime()], [Some t] the
    instant [t] milliseconds after 1970-01-01T00:00:00. *)
Definition QDateTime : Type := option Z.

(** [QByteArray::count (char)]. *)
Definition QByteArray_count (c : byte) (a : QByteArray) : Z :=
  Z.of_nat (count_occ byte_eq_dec a c).

(** [QByteArray::isEmpty]. *)
Definition QByteArray_isEmpty (a : QByteArray) : bool :=
  match a with [] => true | _ :: _ => false end.

(** [QString::isEmpty]. *)
Definition QString_isEmpty (s : QString) : bool :=
  match s with EmptyString => true | String _ _ => false end.

(** [QByteArray::number (qlonglong)]: the decimal digits. *)
Definition QByteArray_number (n : Z) : QByteArray :=
  bytes (NilZero.string_of_int (Z.to_int n)).

(** [std::to_string] of an integer. *)
Definition std_to_string (n : Z) : list byte :=
  bytes (NilZero.string_of_int (Z.to_int n)).

Fixpoint is_prefix (p s : list byte) : bool :=
  match p, s with
  | [], _ => true
  | _ :: _, [] => false
  | x :: p', y :: s' => Byte.eqb x y && is_prefix p' s'
  end.

(** [QByteArray::replace (before, after)] for a non-empty [before] (the
    only use in the source passes ["$N"]): every occurrence found scanning
    from the left is replaced, occurrences do not overlap, and the text
    put in is not scanned again.  [skip] counts the bytes of a match that
    are still to be dropped. *)
Fixpoint replace_from (skip : nat) (before after s : QByteArray) : QByteArray :=
  match s with
  | [] => []
  | c :: s' =>
      match skip with
      | S k => replace_from k before after s'
      | O =>
          if is_prefix before s
          then after ++ replace_from (length before - 1) before after s'
          else c :: replace_from 0 before after s'
      end
  end.

Definition QByteArray_replace (before after s : QByteArray) : QByteArray :=
  replace_from 0 before after s.

(** A C string: a null pointer, or a pointer to bytes that are read up to
    the first NUL (the memory holds a NUL after the bytes listed). *)
Definition CString : Type := option (list byte).

Fixpoint until_nul (l : list byte) : list byte :=
  match l with
  | [] => []
  | c :: l' => if Byte.eqb c x00 then [] else c :: until_nul l'
  end.

(** [QByteArray (const char* )]. *)
Definition QByteArray_of_cstr (s : CString) : QByteArray :=
  match s with
  | None => []
  | Some l => until_nul l
  end.

(** [std::string::c_str]. *)
Definition c_str (s : list byte) : CString := Some s.

(** What the Qt runtime computes for this code: the local 8-bit codec and
    the conversions to text. *)
Class QtRuntime : Type := {
  QVariant : Type;
  QString_toLocal8Bit : QString -> QByteArray;
  QString_fromLocal8Bit : QByteArray -> QString;
  QDateTime_toString : QDateTime -> QString -> QString;
  QVariant_toString : QVariant -> QString;
}.

(* ================================================================= *)
(** * Diagnostics and the wire: a writer monad *)

Inductive Event : Type :=
| EvWarning (message : QString)
| EvDebug (text : QByteArray)
| EvExecParams (command : QByteArray) (nParams : Z)
    (paramValues : option (list QByteArray))
    (paramLengths : option (list Z))
    (paramFormats : option (list Z))
    (resultFormat : Z).

Definition Log (A : Type) : Type := (A * list Event)%type.

Definition ret {A} (a : A) : Log A := (a, []).

Definition bind {A B} (m : Log A) (k : A -> Log B) : Log B :=
  let (a, t1) := m in
  let (b, t2) := k a in
  (b, t1 ++ t2).

Definition emit (e : Event) : Log unit := (tt, [e]).

Definition qWarning (message : QString) : Log unit := emit (EvWarning message).
Definition qDebug (text : QByteArray) : Log unit := emit (EvDebug text).

Definition result_of {A} (m : Log A) : A := fst m.
Definition trace_of {A} (m : Log A) : list Event := snd m.

Notation "x <- m ;; k" := (bind m (fun x => k))
  (at level 61, m at next level, right associativity).
Notation "m ;;; k" := (bind m (fun _ => k))
  (at level 61, right associativity).

(* ================================================================= *)
(** * SqlParameterList *)

Module SqlParameterList.

Record t : Type := mk {
  params_ : list QByteArray;
  formats_ : list Z;
}.

(** [SqlParameterList ()]. *)
Definition empty : t := mk [] [].

Definition params (p : t) : list QByteArray := params_ p.
Definition formats (p : t) : list Z := formats_ p.

(** [size ()] is [params ().size ()]. *)
Definition size (p : t) : nat := length (params p).

(** [operator +=]. *)
Definition append (a p : t) : t :=
  mk (params_ a ++ params_ p) (formats_ a ++ formats_ p).

(** [operator +]: [SqlParameterList (a) += b]. *)
Definition plus (a b : t) : t := append a b.

(** The three overloads of [isEmpty]. *)
Definition isEmpty_cstr (str : CString) : bool :=
  match str with
  | None => true
  | Some [] => true
  | Some (c :: _) => Byte.eqb c x00
  end.

Definition isEmpty_bytes (data : QByteArray) : bool := QByteArray_isEmpty data.

Definition isEmpty_qstring (data : QString) : bool := QString_isEmpty data.

(** [validateData], given the result of the overload of [isEmpty] that
    its argument selects. *)
Definition validateData (fail : bool) : Log bool :=
  (if fail
   then qWarning "error - Invalid SQL argument. Empty data"
   else ret tt) ;;;
  ret (negb fail).

Definition push (p : t) (data : QByteArray) (format : Z) : t :=
  mk (params_ p ++ [data]) (formats_ p ++ [format]).

(** [arg (const QByteArray&)] and [arg (QByteArray&&)]. *)
Definition arg_bytes (p : t) (data : QByteArray) : Log t :=
  ok <- validateData (isEmpty_bytes data) ;;
  ret (if ok then push p data 1 else p).

(** [arg (const char* )]. *)
Definition arg_cstr (p : t) (data : CString) : Log t :=
  ok <- validateData (isEmpty_cstr data) ;;
  ret (if ok then push p (QByteArray_of_cstr data) 0 else p).

(** [arg (const std::string&)]. *)
Definition arg_string (p : t) (data : list byte) : Log t :=
  arg_cstr p (c_str data).

(** [template<class T> arg (const T&)], at an integer type. *)
Definition arg_number (p : t) (value : Z) : Log t :=
  arg_string p (std_to_string value).

Section WithQt.
Context {qt : QtRuntime}.

(** [arg (const QString&)]. *)
Definition arg_qstring (p : t) (data : QString) : Log t :=
  ok <- validateData (isEmpty_qstring data) ;;
  ret (if ok then push p (QString_toLocal8Bit data) 0 else p).

(** [arg (const QDateTime&)]. *)
Definition arg_datetime (p : t) (data : QDateTime) : Log t :=
  arg_qstring p (QDateTime_toString data "yyyy-MM-dd HH:mm:ss").

(** [arg (const QVariant&)]. *)
Definition arg_variant (p : t) (value : QVariant) : Log t :=
  arg_qstring p (QVariant_toString value).

(** The overload set of [arg] as one function of a tagged argument. *)
Inductive Arg : Type :=
| ArgByteArray (data : QByteArray)
| ArgCString (data : CString)
| ArgQString (data : QString)
| ArgStdString (data : list byte)
| ArgDateTime (data : QDateTime)
| ArgNumber (value : Z)
| ArgVariant (value : QVariant).

Definition arg (p : t) (a : Arg) : Log t :=
  match a with
  | ArgByteArray data => arg_bytes p data
  | ArgCString data => arg_cstr p data
  | ArgQString data => arg_qstring p data
  | ArgStdString data => arg_string p data
  | ArgDateTime data => arg_datetime p data
  | ArgNumber value => arg_number p value
  | ArgVariant value => arg_variant p value
  end.
End WithQt.

Record ParamFormat : Type := mkParamFormat {
  param : QByteArray;
  format : Z;
}.

(** The loop of [paramWithFormat]: [result.push_back ({params_[i],
    formats_[i]})] for [i] below [params_.size ()], the two vectors
    having the same size. *)
Fixpoint zip_params (ps : list QByteArray) (fs : list Z) : list ParamFormat :=
  match ps, fs with
  | p :: ps', f :: fs' => mkParamFormat p f :: zip_params ps' fs'
  | _, _ => []
  end.

Definition paramWithFormat (p : t) : Log (list ParamFormat) :=
  if Nat.eqb (length (params_ p)) (length (formats_ p))
  then ret (zip_params (params_ p) (formats_ p))
  else qWarning "invalid data" ;;; ret [].

End SqlParameterList.

(* ================================================================= *)
(** * Sql *)

Module Sql.

Record t : Type := mk {
  command_ : QByteArray;
  params_ : SqlParameterList.t;
}.

(** [Sql (const QByteArray&)] and the other constructors from text. *)
Definition make (cmd : QByteArray) : t := mk cmd SqlParameterList.empty.

Definition command (s : t) : QByteArray := command_ s.
Definition params (s : t) : SqlParameterList.t := params_ s.

(** [operator += (const Sql&)]. *)
Definition append (s sql_ : t) : t :=
  mk (command_ s ++ command_ sql_)
     (SqlParameterList.append (params_ s) (params_ sql_)).

(** [operator + (const Sql&, const Sql&)]: [Sql (a) += b]. *)
Definition plus (a b : t) : t := append a b.

(** [operator += (const QByteArray&)]. *)
Definition append_text (s : t) (sql_ : QByteArray) : t :=
  mk (command_ s ++ sql_) (params_ s).

Definition paramPrefix : byte := x24.

(** [arg]: [params_.arg (data)]. *)
Definition arg {qt : QtRuntime} (s : t) (a : SqlParameterList.Arg) : Log t :=
  p <- SqlParameterList.arg (params_ s) a ;;
  ret (mk (command_ s) p).

(** [parseParamsCount]: the [int] that [QByteArray::count] returns,
    converted to the [uint32_t] result. *)
Definition parseParamsCount (s : t) : Z :=
  to_uint32 (QByteArray_count paramPrefix (command_ s)).

Definition valid (s : t) : bool :=
  let count := Z.of_nat (SqlParameterList.size (params s)) in
  negb (QByteArray_isEmpty (command_ s))
  && (count <? INT_MAX)
  && (count =? Z.of_nat (length (SqlParameterList.params (params s))))
  && (count =? Z.of_nat (length (SqlParameterList.formats (params s))))
  && (to_uint32 count =? parseParamsCount s).

(** The loop of [debug]: for each parameter in turn, a text one is put
    in place of ["$" ++ number nParam]. *)
Fixpoint substitute (debug_ : QByteArray) (nParam : Z)
    (ps : list SqlParameterList.ParamFormat) : QByteArray :=
  match ps with
  | [] => debug_
  | p :: ps' =>
      let debug' :=
        if SqlParameterList.format p =? 0
        then QByteArray_replace
               (paramPrefix :: QByteArray_number nParam)
               (SqlParameterList.param p) debug_
        else debug_ in
      substitute debug' (nParam + 1) ps'
  end.

Definition debug (s : t) : Log unit :=
  ps <- SqlParameterList.paramWithFormat (params_ s) ;;
  qDebug (substitute (command_ s) 1 ps).

End Sql.

(* ================================================================= *)
(** * libpq results

    A model of the part of libpq's documented behaviour that the decoder
    and the cursor rely on.  The accessors take the [PGresult*] the source
    passes, which may be null. *)

Record Cell : Type := mkCell {
  cell_isnull : bool;
  cell_bytes : list byte;
}.

Inductive ExecStatusType : Type :=
| PGRES_EMPTY_QUERY
| PGRES_COMMAND_OK
| PGRES_TUPLES_OK
| PGRES_COPY_OUT
| PGRES_COPY_IN
| PGRES_BAD_RESPONSE
| PGRES_NONFATAL_ERROR
| PGRES_FATAL_ERROR.

Record PGresult : Type := mkPGresult {
  PQntuples : Z;
  PQnfields : Z;
  res_tuples : list (list Cell);
  PQresultStatus : ExecStatusType;
  PQresultErrorMessage : QString;
}.

(** The cell at ([row], [column]), both [int]s; [None] when the handle is
    null or an index is out of range. *)
Definition cell_at (res : option PGresult) (row column : Z) : option Cell :=
  match res with
  | None => None
  | Some r =>
      if (0 <=? row) && (row <? PQntuples r)
         && (0 <=? column) && (column <? PQnfields r)
      then match nth_error (res_tuples r) (Z.to_nat row) with
           | Some tuple => nth_error tuple (Z.to_nat column)
           | None => None
           end
      else None
  end.

(** [PQgetisnull]: 1 for a null cell, and for one out of range. *)
Definition PQgetisnull (res : option PGresult) (row column : Z) : bool :=
  match cell_at res row column with
  | Some c => cell_isnull c
  | None => true
  end.

(** [PQgetlength]: 0 for a null cell, and for one out of range. *)
Definition PQgetlength (res : option PGresult) (row column : Z) : Z :=
  match cell_at res row column with
  | Some c => if cell_isnull c then 0 else Z.of_nat (length (cell_bytes c))
  | None => 0
  end.

(** [PQgetvalue]: a pointer to the bytes, which a NUL follows; to an
    empty string for a null cell; the null pointer out of range. *)
Definition PQgetvalue (res : option PGresult) (row column : Z) : option (list byte) :=
  match cell_at res row column with
  | Some c => Some (if cell_isnull c then [] else cell_bytes c)
  | None => None
  end.

(* ================================================================= *)
(** * The type decoder: [value<T>] *)

Definition Z_of_byte (b : byte) : Z := Z.of_N (Byte.to_N b).

(** A fixed-width integer type: its [sizeof] and its signedness. *)
Record IntType : Type := mkIntType {
  sizeof : nat;
  is_signed : bool;
}.

Definition int8_t : IntType := mkIntType 1 true.
Definition int16_t : IntType := mkIntType 2 true.
Definition int32_t : IntType := mkIntType 4 true.
Definition int64_t : IntType := mkIntType 8 true.
Definition uint8_t : IntType := mkIntType 1 false.
Definition uint16_t : IntType := mkIntType 2 false.
Definition uint32_t : IntType := mkIntType 4 false.
Definition uint64_t : IntType := mkIntType 8 false.

Definition bit_width (T : IntType) : Z := 8 * Z.of_nat (sizeof T).

(** The bit pattern [u] read as a value of [T]. *)
Definition reinterpret (T : IntType) (u : Z) : Z :=
  if is_signed T && (2 ^ (bit_width T - 1) <=? u)
  then u - 2 ^ bit_width T
  else u.

(** The bytes of a pattern, most significant first, shifted in one after
    the other. *)
Definition shift_in (acc : Z) (b : byte) : Z :=
  Z.lor (Z.shiftl acc 8) (Z_of_byte b).

(** [qFromBigEndian<T> (src)]: the first [sizeof (T)] bytes at [src], the
    most significant first, as a [T]. *)
Definition qFromBigEndian (T : IntType) (src : list byte) : Z :=
  reinterpret T (fold_left shift_in (firstn (sizeof T) src) 0).

(** The primary template, at an integer type.  The branch for a null
    pointer is not reached: a cell that is not null has a value. *)
Definition value_int (T : IntType) (res : option PGresult) (row column : Z) : Z :=
  if negb (PQgetisnull res (int_of_uint32 row) (int_of_uint32 column))
     && (PQgetlength res (int_of_uint32 row) (int_of_uint32 column)
         =? Z.of_nat (sizeof T))
  then match PQgetvalue res (int_of_uint32 row) (int_of_uint32 column) with
       | Some src => qFromBigEndian T src
       | None => 0
       end
  else 0.

(** [QDateTime::addMSecs]. *)
Definition addMSecs (d : QDateTime) (msecs : Z) : QDateTime :=
  match d with
  | Some t => Some (t + msecs)
  | None => None
  end.

(** [QDateTime (QDate (2000, 1, 1), QTime (0, 0, 0))], in milliseconds
    after 1970-01-01T00:00:00. *)
Definition epoch2000 : QDateTime := Some 946684800000.

(** [value<QDateTime>]; [/] on [int64_t] rounds toward zero. *)
Definition value_QDateTime (res : option PGresult) (row column : Z) : QDateTime :=
  addMSecs epoch2000 (Z.quot (value_int int64_t res row column) 1000).

(** The span ([PQgetvalue], [PQgetlength]) that the text and the blob
    decoders hand to Qt. *)
Definition value_span (res : option PGresult) (row column : Z) : list byte :=
  match PQgetvalue res (int_of_uint32 row) (int_of_uint32 column) with
  | Some src =>
      firstn (Z.to_nat (PQgetlength res (int_of_uint32 row) (int_of_uint32 column))) src
  | None => []
  end.

(** [value<QByteArray>]. *)
Definition value_QByteArray (res : option PGresult) (row column : Z) : QByteArray :=
  if negb (PQgetisnull res (int_of_uint32 row) (int_of_uint32 column))
  then value_span res row column
  else [].

(** [value<bool>]: the first byte, without a test for null.  A cell with
    no bytes gives the NUL that ends it.  Out of range the source reads
    through a null pointer, which has no defined result; the model
    answers [false] there. *)
Definition value_bool (res : option PGresult) (row column : Z) : bool :=
  match PQgetvalue res (int_of_uint32 row) (int_of_uint32 column) with
  | Some (b :: _) => negb (Byte.eqb b x00)
  | Some [] => false
  | None => false
  end.

(** The types [value] and [to] are instantiated at. *)
Inductive Target : Type :=
| TInt (T : IntType)
| TQString
| TQByteArray
| TBool
| TQDateTime.

Definition denote (T : Target) : Type :=
  match T with
  | TInt _ => Z
  | TQString => QString
  | TQByteArray => QByteArray
  | TBool => bool
  | TQDateTime => QDateTime
  end.

(** [T ()]. *)
Definition default_value (T : Target) : denote T :=
  match T with
  | TInt _ => 0
  | TQString => EmptyString
  | TQByteArray => []
  | TBool => false
  | TQDateTime => None
  end.

Section Decoder.
Context {qt : QtRuntime}.

(** [value<QString>]. *)
Definition value_QString (res : option PGresult) (row column : Z) : QString :=
  if negb (PQgetisnull res (int_of_uint32 row) (int_of_uint32 column))
  then QString_fromLocal8Bit (value_span res row column)
  else EmptyString.

(** [value<T>], by the specialisation that [T] selects. *)
Definition value (T : Target) (res : option PGresult) (row column : Z) : denote T :=
  match T with
  | TInt W => value_int W res row column
  | TQString => value_QString res row column
  | TQByteArray => value_QByteArray res row column
  | TBool => value_bool res row column
  | TQDateTime => value_QDateTime res row column
  end.
End Decoder.

(* ================================================================= *)
(** * The result cursor: PgResult, PgRowColumn, PgRow *)

Module PgResult.

Record t : Type := mk {
  res_ : option PGresult;
  n_rows_ : Z;
  n_columns_ : Z;
}.

(** [PgResult ()]. *)
Definition empty : t := mk None 0 0.

(** [PgResult (PgHandle<PGresult>&&)]. *)
Definition make (res : option PGresult) : Log t :=
  match res with
  | Some r =>
      let n_rows := PQntuples r in
      let n_coumns := PQnfields r in
      if (n_rows <? 0) || (n_coumns <? 0)
      then qWarning "invalid SQL result: tuples count or fields count < 0" ;;;
           ret (mk None 0 0)
      else ret (mk res (to_uint32 n_rows) (to_uint32 n_coumns))
  | None => ret (mk None 0 0)
  end.

Definition rowCount (r : t) : Z := n_rows_ r.
Definition columnCount (r : t) : Z := n_columns_ r.

Definition valid (r : t) : bool :=
  match res_ r with Some _ => true | None => false end.

Definition get (r : t) : option PGresult := res_ r.

Definition size (r : t) : Z := rowCount r.

End PgResult.

Module PgRowColumn.

(** [result_] is the pointer to the result: [None] when null. *)
Record t : Type := mk {
  result_ : option PgResult.t;
  row_ : Z;
  column_ : Z;
}.

Definition next (c : t) : t :=
  mk (result_ c) (uint32_incr (row_ c)) (column_ c).

(** [operator ==]. *)
Definition eqb (c value : t) : bool := column_ c =? column_ value.

(** [operator !=]. *)
Definition neqb (c value : t) : bool := negb (eqb c value).

(** [to<T>]. *)
Definition to {qt : QtRuntime} (T : Target) (c : t) : denote T :=
  match result_ c with
  | Some r =>
      if column_ c <? PgResult.columnCount r
      then value T (PgResult.get r) (row_ c) (column_ c)
      else default_value T
  | None => default_value T
  end.

End PgRowColumn.

Module PgRow.

Record t : Type := mk {
  result_ : option PgResult.t;
  row_ : Z;
}.

(** [PgRow ()]. *)
Definition empty : t := mk None 0.

Definition at_ (r : t) (column : Z) : PgRowColumn.t :=
  PgRowColumn.mk (result_ r) (row_ r) column.

Definition column (r : t) (column : Z) : PgRowColumn.t := at_ r column.

Definition size (r : t) : Z :=
  match result_ r with
  | Some res => PgResult.columnCount res
  | None => 0
  end.

Definition begin (r : t) : PgRowColumn.t := at_ r 0.
Definition end_ (r : t) : PgRowColumn.t := at_ r (size r).

Definition is_empty (r : t) : bool := size r =? 0.
Definition valid (r : t) : bool := negb (is_empty r).

(** [value<T> (column)]. *)
Definition value {qt : QtRuntime} (T : Target) (r : t) (column : Z) : denote T :=
  PgRowColumn.to T (at_ r column).

Definition next (r : t) : t := mk (result_ r) (uint32_incr (row_ r)).

(** [operator ==]. *)
Definition eqb (r value : t) : bool := row_ r =? row_ value.

(** [operator !=]. *)
Definition neqb (r value : t) : bool := negb (eqb r value).

End PgRow.

(** The members of [PgResult] that hand out rows. *)
Module PgResultRows.

Definition at_ (r : PgResult.t) (index : Z) : PgRow.t :=
  if index <? PgResult.size r then PgRow.mk (Some r) index else PgRow.empty.

Definition row (r : PgResult.t) (index : Z) : PgRow.t := at_ r index.

Definition begin (r : PgResult.t) : PgRow.t := PgRow.mk (Some r) 0.
Definition end_ (r : PgResult.t) : PgRow.t := PgRow.mk (Some r) (PgResult.size r).

Definition front (r : PgResult.t) : PgRow.t := at_ r 0.
Definition back (r : PgResult.t) : PgRow.t :=
  at_ r (to_uint32 (PgResult.size r - 1)).

(** [operator []]. *)
Definition subscript (r : PgResult.t) (index : Z) : PgRow.t :=
  PgRow.mk (Some r) index.

End PgResultRows.

(** A range-based [for] over a cursor: the cursor after [n] increments. *)
Definition advance {A} (next : A -> A) (n : nat) (c : A) : A :=
  Nat.iter n next c.

(** The indices such a loop visits: it stops at the first cursor equal to
    [last], and at the latest after [fuel] steps. *)
Fixpoint visit {A} (next : A -> A) (eqb : A -> A -> bool) (index : A -> Z)
    (fuel : nat) (c last : A) : list Z :=
  match fuel with
  | O => []
  | S k =>
      if eqb c last then []
      else index c :: visit next eqb index k (next c) last
  end.

(* ================================================================= *)
(** * The executor *)

(** The connection side of libpq. *)
Class Libpq : Type := {
  PGconn : Type;
  PQexecParams :
    option PGconn -> CString -> Z ->
    option (list QByteArray) -> option (list Z) -> option (list Z) -> Z ->
    option PGresult;
}.

Section Exec.
Context {pq : Libpq}.

(** The call of [PQexecParams] (its [paramTypes] are always null): it
    is recorded, and libpq gives the handle. *)
Definition call_PQexecParams (conn : option PGconn) (command : CString)
    (nParams : Z) (paramValues : option (list QByteArray))
    (paramLengths paramFormats : option (list Z)) (resultFormat : Z)
  : Log (option PGresult) :=
  emit (EvExecParams (QByteArray_of_cstr command) nParams
          paramValues paramLengths paramFormats resultFormat) ;;;
  ret (PQexecParams conn command nParams
         paramValues paramLengths paramFormats resultFormat).

(** The lambda [errorReport]; [error] is the caller's [QString*],
    [None] when null, and the second component of the result is what it
    points to afterwards. *)
Definition errorReport (error : option QString) (message : QString)
  : Log (option PGresult * option QString) :=
  qWarning message ;;;
  ret (None, match error with Some _ => Some message | None => None end).

Definition isFailStatus (status : ExecStatusType) : bool :=
  match status with
  | PGRES_COMMAND_OK | PGRES_TUPLES_OK => false
  | _ => true
  end.

(** [static_cast<int>] of a [size_t]. *)
Definition int_of_size (n : nat) : Z := int_of_uint32 (to_uint32 (Z.of_nat n)).

Definition exec (conn : option PGconn) (sql_ : Sql.t) (error : option QString)
  : Log (option PGresult * option QString) :=
  if negb (Sql.valid sql_)
  then errorReport error "Sql - Too many parameters"
  else
    let params := Sql.params sql_ in
    let vparams := SqlParameterList.params params in
    let n_params := SqlParameterList.size params in
    let is_params := (0 <? n_params)%nat in
    Sql.debug sql_ ;;;
    result <- call_PQexecParams conn (Some (Sql.command sql_))
                (int_of_size n_params)
                (if is_params then Some vparams else None)
                (if is_params
                 then Some (map (fun data => int_of_size (length data)) vparams)
                 else None)
                (if is_params then Some (SqlParameterList.formats params) else None)
                1 ;;
    match result with
    | None => errorReport error "PGresult - invalid result handle"
    | Some r =>
        if isFailStatus (PQresultStatus r)
        then errorReport error ("PGresult - " ++ PQresultErrorMessage r)%string
        else ret (Some r, error)
    end.
End Exec.

(* ================================================================= *)
(** * Collaborators to evaluate the definitions with *)

(** A Qt runtime: the Latin-1 codec, variants that hold text, and
    date-times rendered by their millisecond count (the calendar is not
    modelled), a null date-time by the empty text as Qt does. *)
Definition qt_latin1 : QtRuntime := {|
  QVariant := QString;
  QString_toLocal8Bit := list_byte_of_string;
  QString_fromLocal8Bit := string_of_list_byte;
  QDateTime_toString := fun d _ =>
    match d with
    | Some t => NilZero.string_of_int (Z.to_int t)
    | None => EmptyString
    end;
  QVariant_toString := fun v => v;
|}.

(** One row, two columns: the [int32_t] 7 and the [int64_t] -1. *)
Definition res_1x2 : PGresult := {|
  PQntuples := 1;
  PQnfields := 2;
  res_tuples := [[mkCell false [x00; x00; x00; x07];
                  mkCell false [xff; xff; xff; xff; xff; xff; xff; xff]]];
  PQresultStatus := PGRES_TUPLES_OK;
  PQresultErrorMessage := EmptyString;
|}.

(** A server that answers every submission with [res_1x2]. *)
Definition pq_const : Libpq := {|
  PGconn := unit;
  PQexecParams := fun _ _ _ _ _ _ _ => Some res_1x2;
|}.

Definition result_1x2 : PgResult.t := PgResult.mk (Some res_1x2) 1 2.

(** [Sql ("INSERT INTO t VALUES ($1, $2)")]. *)
Definition sql_insert : Sql.t := Sql.make (bytes "INSERT INTO t VALUES ($1, $2)").

(** [Sql ("INSERT INTO t VALUES ($1, $2)").arg (name).arg (data)], with a
    text and a blob. *)
Definition sql_insert_bound : Sql.t :=
  result_of
    (Sql.arg (qt := qt_latin1)
       (result_of
          (Sql.arg (qt := qt_latin1) sql_insert
             (SqlParameterList.ArgQString "name")))
       (SqlParameterList.ArgByteArray [x01; x02])).

(* ================================================================= *)
(** * Readings of the specification's words

    The definitions below are not translated from the source: they say
    what a sentence of the specification means, to be compared with what
    the code computes. *)

(** "An empty string, a null or empty C string, or an empty byte array":
    emptiness of an argument, judged for the converting overloads on the
    text the argument is converted to. *)
Definition spec_is_empty {qt : QtRuntime} (a : SqlParameterList.Arg) : bool :=
  match a with
  | SqlParameterList.ArgByteArray data => Nat.eqb (length data) 0
  | SqlParameterList.ArgCString None => true
  | SqlParameterList.ArgCString (Some l) => Nat.eqb (length (until_nul l)) 0
  | SqlParameterList.ArgQString data => Nat.eqb (String.length data) 0
  | SqlParameterList.ArgStdString data => Nat.eqb (length (until_nul data)) 0
  | SqlParameterList.ArgDateTime d =>
      Nat.eqb (String.length (QDateTime_toString d "yyyy-MM-dd HH:mm:ss")) 0
  | SqlParameterList.ArgNumber _ => false
  | SqlParameterList.ArgVariant v =>
      Nat.eqb (String.length (QVariant_toString v)) 0
  end.

(** "Format tag binary (1) for byte-array arguments and text (0) for
    string-like arguments". *)
Definition spec_format_tag {qt : QtRuntime} (a : SqlParameterList.Arg) : Z :=
  match a with
  | SqlParameterList.ArgByteArray _ => 1
  | _ => 0
  end.

(** The same sentence read on the value that is passed, before any
    conversion: a byte array, a C string and a [QString] as above, a
    [std::string] is empty when it has no bytes, and a date-time, a
    number or a variant is never "an empty string". *)
Definition spec_is_empty_as_worded {qt : QtRuntime}
    (a : SqlParameterList.Arg) : bool :=
  match a with
  | SqlParameterList.ArgByteArray data => Nat.eqb (length data) 0
  | SqlParameterList.ArgCString None => true
  | SqlParameterList.ArgCString (Some l) => Nat.eqb (length (until_nul l)) 0
  | SqlParameterList.ArgQString data => Nat.eqb (String.length data) 0
  | SqlParameterList.ArgStdString data => Nat.eqb (length data) 0
  | SqlParameterList.ArgDateTime _ => false
  | SqlParameterList.ArgNumber _ => false
  | SqlParameterList.ArgVariant _ => false
  end.

(** "The textual count of '$' marker characters in the template". *)
Fixpoint spec_placeholder_count (template : list byte) : nat :=
  match template with
  | [] => O
  | c :: rest =>
      if Byte.eqb c x24
      then S (spec_placeholder_count rest)
      else spec_placeholder_count rest
  end.

(** "The big-endian encoding": the value of a byte string read as digits
    in base 256, the most significant first. *)
Fixpoint spec_be_value (l : list byte) : Z :=
  match l with
  | [] => 0
  | b :: l' => Z_of_byte b * 256 ^ Z.of_nat (length l') + spec_be_value l'
  end.

Definition byte_of_Z (z : Z) : byte :=
  match Byte.of_N (Z.to_N (z mod 256)) with
  | Some b => b
  | None => x00
  end.

(** The [n]-byte big-endian encoding of the bit pattern [u]. *)
Fixpoint spec_be_encode (n : nat) (u : Z) : list byte :=
  match n with
  | O => []
  | S k => byte_of_Z (u / 256 ^ Z.of_nat k) :: spec_be_encode k u
  end.

(** The values of an integer type, and the two's complement pattern of
    one. *)
Definition spec_in_range (T : IntType) (v : Z) : Prop :=
  if is_signed T
  then - 2 ^ (bit_width T - 1) <= v < 2 ^ (bit_width T - 1)
  else 0 <= v < 2 ^ bit_width T.

Definition spec_encode (T : IntType) (v : Z) : list byte :=
  spec_be_encode (sizeof T) (v mod 2 ^ bit_width T).

(** "[d] truncated to millisecond precision", for the instant [usecs]
    microseconds from 2000-01-01T00:00:00: the last whole millisecond not
    after it. *)
Definition spec_truncate_to_msecs (usecs : Z) : QDateTime :=
  addMSecs epoch2000 (usecs / 1000).

(** "The rendered debug form is logged before submission": the trace has
    a [qDebug] line with no submission before it. *)
Fixpoint spec_debug_logged_first (trace : list Event) : bool :=
  match trace with
  | [] => false
  | EvDebug _ :: _ => true
  | EvExecParams _ _ _ _ _ _ :: _ => false
  | EvWarning _ :: rest => spec_debug_logged_first rest
  end.

(** "No protocol round-trip occurs". *)
Definition is_submission (e : Event) : bool :=
  match e with
  | EvExecParams _ _ _ _ _ _ => true
  | _ => false
  end.

Definition spec_no_round_trip (trace : list Event) : bool :=
  forallb (fun e => negb (is_submission e)) trace.

(** "The rendered debug form of the command": the text that [debug]
    logs when each payload has its format tag. *)
Definition rendered (s : Sql.t) : QByteArray :=
  Sql.substitute (Sql.command s) 1
    (SqlParameterList.zip_params
       (SqlParameterList.params (Sql.params s))
       (SqlParameterList.formats (Sql.params s))).

(** The invariant of a parameter list: one format tag for each payload. *)
Definition well_formed (p : SqlParameterList.t) : Prop :=
  length (SqlParameterList.params p) = length (SqlParameterList.formats p).

(* ================================================================= *)
(** * Further members of the source *)

(** [p.arg (a1).arg (a2)...]: calls of [arg] chained, as in the source's
    [Sql ("...").arg (name).arg (data)]. *)
Fixpoint SqlParameterList_args {qt : QtRuntime} (p : SqlParameterList.t)
    (l : list SqlParameterList.Arg) : Log SqlParameterList.t :=
  match l with
  | [] => ret p
  | a :: l' => p' <- SqlParameterList.arg p a ;; SqlParameterList_args p' l'
  end.

Fixpoint Sql_args {qt : QtRuntime} (s : Sql.t)
    (l : list SqlParameterList.Arg) : Log Sql.t :=
  match l with
  | [] => ret s
  | a :: l' => s' <- Sql.arg s a ;; Sql_args s' l'
  end.

(** The arguments of a chain that [validateData] lets through. *)
Definition accepted {qt : QtRuntime} (l : list SqlParameterList.Arg) : nat :=
  length (filter (fun a => negb (spec_is_empty a)) l).

(** A line of [qWarning ()]. *)
Definition is_warning (e : Event) : bool :=
  match e with
  | EvWarning _ => true
  | _ => false
  end.

(** [PgResult::value (row, column)]: [value (row).value (column)]. *)
Definition PgResult_value (r : PgResult.t) (row column : Z) : PgRowColumn.t :=
  PgRow.at_ (PgResultRows.at_ r row) column.

(** [PgRow::operator []] and [PgRow::value (column)] are [at (column)]. *)
Definition PgRow_subscript (r : PgRow.t) (column : Z) : PgRowColumn.t :=
  PgRow.at_ r column.

Inductive ConnStatusType : Type :=
| CONNECTION_OK
| CONNECTION_BAD
| CONNECTION_STARTED
| CONNECTION_MADE
| CONNECTION_AWAITING_RESPONSE
| CONNECTION_AUTH_OK
| CONNECTION_SETENV
| CONNECTION_SSL_STARTUP
| CONNECTION_NEEDED.

(** What libpq answers about a connection. *)
Class LibpqConnection (pq : Libpq) : Type := {
  PQconnectdb : QByteArray -> option PGconn;
  PQstatus : PGconn -> ConnStatusType;
  PQerrorMessage : PGconn -> QString;
  PQsetClientEncoding : PGconn -> QString -> Z;
}.

Section Connection.
Context {qt : QtRuntime} {pq : Libpq} {pqc : LibpqConnection pq}.

(** The free function [errorMessage (const PGconn* )]. *)
Definition errorMessage (conn_ : option PGconn) : Log QString :=
  let message :=
    match conn_ with
    | None => "PgClient - invalid connection handle"
    | Some c =>
        match PQstatus c with
        | CONNECTION_OK => EmptyString
        | _ => ("PGconn - " ++ PQerrorMessage c)%string
        end
    end in
  (if negb (QString_isEmpty message) then qWarning message else ret tt) ;;;
  ret message.

End Connection.

(** The free function [::exec], under the name [PgConnection::exec]
    reaches it by. *)
Definition free_exec {pq : Libpq} (conn : option PGconn) (sql_ : Sql.t)
    (error : option QString) : Log (option PGresult * option QString) :=
  exec conn sql_ error.

Module PgConnection.

Section WithLibpq.
Context {qt : QtRuntime} {pq : Libpq} {pqc : LibpqConnection pq}.

Record t : Type := mk {
  conn_ : option PGconn;
  errorMessage_ : QString;
}.

(** [PgConnection ()]. *)
Definition empty : t := mk None EmptyString.

Definition valid (c : t) : bool := QString_isEmpty (errorMessage_ c).

(** [validate]: the answer and the connection afterwards. *)
Definition validate (c : t) : Log (bool * t) :=
  if valid c
  then message <- errorMessage (conn_ c) ;;
       let c' := mk (conn_ c) message in
       ret (valid c', c')
  else ret (false, c).

(** [PgConnection (const QString&)]. *)
Definition connect (conStr : QString) : Log t :=
  let c := mk (PQconnectdb (QString_toLocal8Bit conStr)) EmptyString in
  v <- validate c ;;
  let (ok, c1) := v in
  if ok
  then match conn_ c1 with
       | Some conn =>
           if negb (PQsetClientEncoding conn "WIN1251" =? 0)
           then qWarning "error PQsetClientEncoding" ;;; ret c1
           else ret c1
       | None => ret c1
       end
  else ret c1.

(** [exec]: the result and the connection afterwards.  The handle that
    [::exec] returns is converted by [PgResult (PgHandle<PGresult>&&)];
    [::exec] writes through [&errorMessage_]. *)
Definition exec (c : t) (sql_ : Sql.t) : Log (PgResult.t * t) :=
  v <- validate c ;;
  let (ok, c1) := v in
  if ok
  then r <- free_exec (conn_ c1) sql_ (Some (errorMessage_ c1)) ;;
       let (handle, error) := r in
       res <- PgResult.make handle ;;
       ret (res, mk (conn_ c1)
                   match error with
                   | Some message => message
                   | None => errorMessage_ c1
                   end)
  else ret (PgResult.empty, c1).

Definition get (c : t) : option PGconn := conn_ c.

End WithLibpq.

End PgConnection.

(** A healthy connection for [pq_const]. *)
Definition pqc_ok : LibpqConnection pq_const := {|
  PQconnectdb := fun _ => Some (tt : @PGconn pq_const);
  PQstatus := fun _ => CONNECTION_OK;
  PQerrorMessage := fun _ => EmptyString;
  PQsetClientEncoding := fun _ _ => 0;
|}.

(** A handle of [pq_const], and connection objects around it: a fresh
    one, and one that holds the message of a failure. *)
Definition conn_sample : @PGconn pq_const := tt.

Definition connection_fresh : @PgConnection.t pq_const :=
  PgConnection.mk (Some conn_sample) EmptyString.

Definition connection_failed : @PgConnection.t pq_const :=
  PgConnection.mk (Some conn_sample) "PGresult - syntax error".

(* ================================================================= *)
(** * Properties of the parameter list *)

Section ParameterListFacts.
Context {qt : QtRuntime}.

Lemma validateData_fail :
  SqlParameterList.validateData true
  = (false, [EvWarning "error - Invalid SQL argument. Empty data"]).
Proof. reflexivity. Qed.

Lemma validateData_pass : SqlParameterList.validateData false = (true, []).
Proof. reflexivity. Qed.

Lemma isEmpty_cstr_strlen (s : list byte) :
  SqlParameterList.isEmpty_cstr (Some s) = Nat.eqb (length (until_nul s)) 0.
Proof.
  destruct s as [|c s]; simpl; [reflexivity|].
  destruct (Byte.eqb c x00); reflexivity.
Qed.

Lemma isEmpty_qstring_length (s : QString) :
  SqlParameterList.isEmpty_qstring s = Nat.eqb (String.length s) 0.
Proof. destruct s; reflexivity. Qed.

Lemma isEmpty_bytes_length (d : QByteArray) :
  SqlParameterList.isEmpty_bytes d = Nat.eqb (length d) 0.
Proof. destruct d; reflexivity. Qed.

(** [std::to_string] never gives an empty C string: the text starts
    with a digit or a minus sign. *)
Lemma std_to_string_not_empty (n : Z) :
  SqlParameterList.isEmpty_cstr (c_str (std_to_string n)) = false.
Proof.
  unfold std_to_string, bytes, c_str.
  destruct n as [|p|p]; simpl; try reflexivity.
  unfold NilZero.string_of_uint.
  destruct (Pos.to_uint p); reflexivity.
Qed.

(** What each overload of [arg] tests is the emptiness the
    specification speaks of. *)
Lemma arg_cases (p : SqlParameterList.t) (a : SqlParameterList.Arg) :
  exists payload,
    SqlParameterList.arg p a
    = if spec_is_empty a
      then (p, [EvWarning "error - Invalid SQL argument. Empty data"])
      else (SqlParameterList.push p payload (spec_format_tag a), []).
Proof.
  destruct a as [d|d|d|d|d|n|v]; simpl.
  - exists d. unfold SqlParameterList.arg_bytes.
    rewrite isEmpty_bytes_length.
    destruct (Nat.eqb (length d) 0); reflexivity.
  - exists (QByteArray_of_cstr d). unfold SqlParameterList.arg_cstr.
    destruct d as [l|]; [|reflexivity].
    rewrite isEmpty_cstr_strlen.
    destruct (Nat.eqb (length (until_nul l)) 0); reflexivity.
  - exists (QString_toLocal8Bit d). unfold SqlParameterList.arg_qstring.
    rewrite isEmpty_qstring_length.
    destruct (Nat.eqb (String.length d) 0); reflexivity.
  - exists (until_nul d).
    unfold SqlParameterList.arg_string, SqlParameterList.arg_cstr, c_str.
    rewrite isEmpty_cstr_strlen.
    destruct (Nat.eqb (length (until_nul d)) 0); reflexivity.
  - eexists.
    unfold SqlParameterList.arg_datetime, SqlParameterList.arg_qstring.
    rewrite isEmpty_qstring_length.
    destruct (Nat.eqb (String.length _) 0); reflexivity.
  - exists (until_nul (std_to_string n)).
    unfold SqlParameterList.arg_number, SqlParameterList.arg_string,
      SqlParameterList.arg_cstr.
    rewrite std_to_string_not_empty. reflexivity.
  - eexists.
    unfold SqlParameterList.arg_variant, SqlParameterList.arg_qstring.
    rewrite isEmpty_qstring_length.
    destruct (Nat.eqb (String.length _) 0); reflexivity.
Qed.

Lemma size_push p d f :
  SqlParameterList.size (SqlParameterList.push p d f)
  = S (SqlParameterList.size p).
Proof.
  unfold SqlParameterList.size, SqlParameterList.params, SqlParameterList.push.
  simpl. rewrite length_app. simpl. lia.
Qed.

(** [arg] keeps the two vectors of the same length. *)
Lemma arg_well_formed p a :
  well_formed p -> well_formed (result_of (SqlParameterList.arg p a)).
Proof.
  intros Hp. destruct (arg_cases p a) as [d ->].
  destruct (spec_is_empty a); simpl; [exact Hp|].
  unfold well_formed in *. simpl. rewrite !length_app. simpl.
  unfold SqlParameterList.params, SqlParameterList.formats in Hp. lia.
Qed.

Lemma append_well_formed a b :
  well_formed a -> well_formed b -> well_formed (SqlParameterList.append a b).
Proof.
  unfold well_formed, SqlParameterList.params, SqlParameterList.formats.
  simpl. intros Ha Hb. rewrite !length_app. lia.
Qed.

Lemma zip_params_app ps1 : forall fs1 ps2 fs2,
  length ps1 = length fs1 ->
  SqlParameterList.zip_params (ps1 ++ ps2) (fs1 ++ fs2)
  = SqlParameterList.zip_params ps1 fs1 ++ SqlParameterList.zip_params ps2 fs2.
Proof.
  induction ps1 as [|p ps1 IH]; intros [|f fs1] ps2 fs2 Hlen;
    simpl in *; try discriminate; [reflexivity|].
  f_equal. apply IH. lia.
Qed.

Lemma paramWithFormat_well_formed p :
  well_formed p ->
  SqlParameterList.paramWithFormat p
  = (SqlParameterList.zip_params (SqlParameterList.params p)
       (SqlParameterList.formats p), []).
Proof.
  unfold well_formed, SqlParameterList.paramWithFormat,
    SqlParameterList.params, SqlParameterList.formats.
  intros ->. rewrite Nat.eqb_refl. reflexivity.
Qed.
End ParameterListFacts.

(** C3, amended. Every call of [arg] returns.  An argument is judged on
    what [validateData] is given: the byte array, the C string (for a
    [std::string] its [c_str ()], for a number its decimal text) or the
    [QString] (for a date-time or a variant the text it is converted
    to).  When that is an empty byte array, a null or empty C string or
    an empty string, the diagnostic is emitted and the list is unchanged,
    so its size is.  Otherwise exactly one payload and one format tag are
    appended, nothing is logged, and the tag is 1 for a byte array and 0
    for the string-like arguments. *)
Theorem arg_drops_empty_appends_other :
  forall (qt : QtRuntime) (p : SqlParameterList.t) (a : SqlParameterList.Arg),
    let r := SqlParameterList.arg p a in
    if spec_is_empty a
    then result_of r = p
         /\ trace_of r = [EvWarning "error - Invalid SQL argument. Empty data"]
         /\ SqlParameterList.size (result_of r) = SqlParameterList.size p
    else (exists payload,
            SqlParameterList.params (result_of r)
            = SqlParameterList.params p ++ [payload])
         /\ SqlParameterList.formats (result_of r)
            = SqlParameterList.formats p ++ [spec_format_tag a]
         /\ SqlParameterList.size (result_of r) = S (SqlParameterList.size p)
         /\ trace_of r = []
         /\ (spec_format_tag a = 1 <->
             exists data, a = SqlParameterList.ArgByteArray data).
Proof.
  intros qt p a r. subst r.
  destruct (arg_cases p a) as [payload ->].
  destruct (spec_is_empty a) eqn:E; simpl.
  - repeat split.
  - split; [exists payload; reflexivity|].
    split; [reflexivity|].
    split; [apply size_push|].
    split; [reflexivity|].
    destruct a; simpl; split; intros H;
      solve [ discriminate | reflexivity | eexists; reflexivity
            | destruct H; discriminate ].
Qed.

(** The claim of C3 read on the value that is passed fails.  The
    [std::string] of the three bytes NUL, 'a', 'b' is not an empty
    string, and [arg] drops it with the diagnostic, because what it tests
    is [c_str ()]; a null [QDateTime] and an invalid [QVariant], whose
    text Qt gives as empty, are dropped in the same way. *)
Lemma arg_drops_string_with_leading_nul :
  ~ (forall (qt : QtRuntime) (p : SqlParameterList.t)
            (a : SqlParameterList.Arg),
       let r := SqlParameterList.arg p a in
       if spec_is_empty_as_worded a
       then result_of r = p
            /\ trace_of r = [EvWarning "error - Invalid SQL argument. Empty data"]
            /\ SqlParameterList.size (result_of r) = SqlParameterList.size p
       else (exists payload,
               SqlParameterList.params (result_of r)
               = SqlParameterList.params p ++ [payload])
            /\ SqlParameterList.formats (result_of r)
               = SqlParameterList.formats p ++ [spec_format_tag a]
            /\ SqlParameterList.size (result_of r) = S (SqlParameterList.size p)
            /\ trace_of r = []).
Proof.
  intros H.
  specialize (H qt_latin1 SqlParameterList.empty
                (SqlParameterList.ArgStdString [x00; x61; x62])).
  cbv zeta in H. cbn [spec_is_empty_as_worded length Nat.eqb] in H.
  destruct H as (_ & _ & Hsize & _).
  vm_compute in Hsize. discriminate Hsize.
Qed.

Example arg_drops_null_datetime :
  SqlParameterList.arg (qt := qt_latin1) SqlParameterList.empty
    (SqlParameterList.ArgDateTime None)
  = (SqlParameterList.empty,
     [EvWarning "error - Invalid SQL argument. Empty data"]).
Proof. reflexivity. Qed.

(* ================================================================= *)
(** * Properties of the command *)

Lemma to_uint32_small (z : Z) : 0 <= z < 2 ^ 32 -> to_uint32 z = z.
Proof. intros H. unfold to_uint32. apply Z.mod_small. exact H. Qed.

Lemma byte_eqb_eq (a b : byte) : Byte.eqb a b = true <-> a = b.
Proof.
  split; [apply byte_dec_bl | apply byte_dec_lb].
Qed.

Lemma count_is_placeholder_count (template : list byte) :
  QByteArray_count Sql.paramPrefix template
  = Z.of_nat (spec_placeholder_count template).
Proof.
  unfold QByteArray_count, Sql.paramPrefix. f_equal.
  induction template as [|c rest IH]; simpl; [reflexivity|].
  destruct (byte_eq_dec c x24) as [->|Hne].
  - simpl. now rewrite IH.
  - destruct (Byte.eqb c x24) eqn:E.
    + apply byte_eqb_eq in E. contradiction.
    + exact IH.
Qed.

Lemma placeholder_count_le_length (template : list byte) :
  (spec_placeholder_count template <= length template)%nat.
Proof.
  induction template as [|c rest IH]; simpl; [lia|].
  destruct (Byte.eqb c x24); lia.
Qed.

Lemma valid_unfold (s : Sql.t) :
  Sql.valid s = true <->
  Sql.command s <> []
  /\ Z.of_nat (SqlParameterList.size (Sql.params s)) < INT_MAX
  /\ SqlParameterList.size (Sql.params s)
     = length (SqlParameterList.params (Sql.params s))
  /\ SqlParameterList.size (Sql.params s)
     = length (SqlParameterList.formats (Sql.params s))
  /\ Z.of_nat (SqlParameterList.size (Sql.params s)) = Sql.parseParamsCount s.
Proof.
  unfold Sql.valid, Sql.command.
  rewrite !andb_true_iff, negb_true_iff, Z.ltb_lt, !Z.eqb_eq, !Nat2Z.inj_iff.
  assert (Hne : QByteArray_isEmpty (Sql.command_ s) = false <-> Sql.command_ s <> []).
  { destruct (Sql.command_ s); simpl; split; congruence. }
  rewrite Hne. unfold INT_MAX.
  split.
  - intros [[[[H1 H2] H3] H4] H5]. repeat split; try assumption.
    rewrite <- H5. symmetry. apply to_uint32_small. lia.
  - intros (H1 & H2 & H3 & H4 & H5). repeat split; try assumption.
    rewrite <- H5. apply to_uint32_small. lia.
Qed.

Lemma parseParamsCount_textual (s : Sql.t) :
  Z.of_nat (length (Sql.command s)) < 2 ^ 32 ->
  Sql.parseParamsCount s = Z.of_nat (spec_placeholder_count (Sql.command s)).
Proof.
  intros H. unfold Sql.parseParamsCount, Sql.command in *.
  rewrite count_is_placeholder_count. apply to_uint32_small.
  pose proof (placeholder_count_le_length (Sql.command_ s)). lia.
Qed.

Lemma sql_arg_cases {qt : QtRuntime} (s : Sql.t) (a : SqlParameterList.Arg) :
  exists payload,
    result_of (Sql.arg s a)
    = if spec_is_empty a
      then s
      else Sql.mk (Sql.command s)
             (SqlParameterList.push (Sql.params s) payload (spec_format_tag a)).
Proof.
  unfold Sql.arg.
  destruct (arg_cases (Sql.params_ s) a) as [payload ->].
  exists payload. destruct (spec_is_empty a); destruct s; reflexivity.
Qed.

Lemma sql_arg_empty_qstring {qt : QtRuntime} (s : Sql.t) :
  result_of (Sql.arg s (SqlParameterList.ArgQString EmptyString)) = s.
Proof. destruct s; reflexivity. Qed.

Lemma sql_arg_command {qt : QtRuntime} (s : Sql.t) (a : SqlParameterList.Arg) :
  Sql.command (result_of (Sql.arg s a)) = Sql.command s.
Proof.
  destruct (sql_arg_cases s a) as [payload ->].
  destruct (spec_is_empty a); reflexivity.
Qed.

Lemma sql_arg_size_le {qt : QtRuntime} (s : Sql.t) (a : SqlParameterList.Arg) :
  (SqlParameterList.size (Sql.params (result_of (Sql.arg s a)))
   <= S (SqlParameterList.size (Sql.params s)))%nat.
Proof.
  destruct (sql_arg_cases s a) as [payload ->].
  destruct (spec_is_empty a); simpl; rewrite ?size_push; lia.
Qed.

(** C2. [valid ()] holds exactly when the template is not empty, the
    parameter count is below [INT_MAX], equals the number of payloads,
    equals the number of format tags and equals [parseParamsCount ()];
    [parseParamsCount ()] is the number of ['$'] bytes in the template
    (for every template shorter than 2^32 bytes, so for every byte array
    whose size is an [int]); and a command with two placeholders that was
    given one accepted argument and one empty string, in either order, is
    not valid. *)
Theorem valid_iff_consistent :
  (forall s : Sql.t,
     Sql.valid s = true <->
     Sql.command s <> []
     /\ Z.of_nat (SqlParameterList.size (Sql.params s)) < INT_MAX
     /\ SqlParameterList.size (Sql.params s)
        = length (SqlParameterList.params (Sql.params s))
     /\ SqlParameterList.size (Sql.params s)
        = length (SqlParameterList.formats (Sql.params s))
     /\ Z.of_nat (SqlParameterList.size (Sql.params s)) = Sql.parseParamsCount s)
  /\ (forall s : Sql.t,
        Z.of_nat (length (Sql.command s)) < 2 ^ 32 ->
        Sql.parseParamsCount s
        = Z.of_nat (spec_placeholder_count (Sql.command s)))
  /\ (forall (qt : QtRuntime) (template : QByteArray)
             (a : SqlParameterList.Arg),
        Z.of_nat (length template) < 2 ^ 32 ->
        spec_placeholder_count template = 2%nat ->
        Sql.valid
          (result_of
             (Sql.arg (result_of (Sql.arg (Sql.make template) a))
                (SqlParameterList.ArgQString EmptyString))) = false
        /\ Sql.valid
             (result_of
                (Sql.arg
                   (result_of
                      (Sql.arg (Sql.make template)
                         (SqlParameterList.ArgQString EmptyString))) a))
           = false).
Proof.
  split; [exact valid_unfold|].
  split; [exact parseParamsCount_textual|].
  intros qt template a Hlen Htwo.
  assert (Hinv : forall s,
             Sql.command s = template ->
             (SqlParameterList.size (Sql.params s) <= 1)%nat ->
             Sql.valid s = false).
  { intros s Hc Hs. destruct (Sql.valid s) eqn:E; [|reflexivity].
    apply valid_unfold in E. destruct E as (_ & _ & _ & _ & E).
    rewrite parseParamsCount_textual in E by (rewrite Hc; exact Hlen).
    rewrite Hc, Htwo in E. lia. }
  rewrite sql_arg_empty_qstring.
  split; apply Hinv.
  - apply sql_arg_command.
  - pose proof (sql_arg_size_le (Sql.make template) a) as H. simpl in H. exact H.
  - rewrite sql_arg_command, sql_arg_empty_qstring. reflexivity.
  - pose proof (sql_arg_size_le (Sql.make template) a) as H. simpl in H.
    rewrite sql_arg_empty_qstring. exact H.
Qed.

Lemma valid_iff_consistent_witness :
  Z.of_nat (length (Sql.command sql_insert)) < 2 ^ 32
  /\ Sql.parseParamsCount sql_insert = 2
  /\ Sql.valid sql_insert = false.
Proof.
  assert (H : Z.of_nat (length (Sql.command sql_insert)) < 2 ^ 32) by reflexivity.
  split; [exact H|]. split.
  - exact (proj1 (proj2 valid_iff_consistent) sql_insert H).
  - reflexivity.
Defined.

Example sql_insert_two_accepted :
  Sql.valid
    (result_of
       (Sql.arg (qt := qt_latin1)
          (result_of
             (Sql.arg (qt := qt_latin1) sql_insert
                (SqlParameterList.ArgQString "name")))
          (SqlParameterList.ArgByteArray [x01; x02]))) = true.
Proof. reflexivity. Qed.

Example sql_insert_one_dropped :
  Sql.valid
    (result_of
       (Sql.arg (qt := qt_latin1)
          (result_of
             (Sql.arg (qt := qt_latin1) sql_insert
                (SqlParameterList.ArgQString "name")))
          (SqlParameterList.ArgQString EmptyString))) = false.
Proof. reflexivity. Qed.

(* ================================================================= *)
(** * Concatenation *)

Lemma size_append (a b : SqlParameterList.t) :
  SqlParameterList.size (SqlParameterList.append a b)
  = (SqlParameterList.size a + SqlParameterList.size b)%nat.
Proof.
  unfold SqlParameterList.size, SqlParameterList.params. simpl.
  apply length_app.
Qed.

Lemma paramWithFormat_append (a b : SqlParameterList.t) :
  well_formed a -> well_formed b ->
  result_of (SqlParameterList.paramWithFormat (SqlParameterList.append a b))
  = result_of (SqlParameterList.paramWithFormat a)
    ++ result_of (SqlParameterList.paramWithFormat b).
Proof.
  intros Ha Hb.
  rewrite !paramWithFormat_well_formed
    by auto using append_well_formed.
  simpl. apply zip_params_app. exact Ha.
Qed.

(** C9. [a + b] and [a += b] hold [a]'s payloads followed by [b]'s and
    [a]'s format tags followed by [b]'s: entry [i] of [a] stays at [i],
    entry [i] of [b] sits at [size a + i], unchanged; for lists that obey
    the invariant the (payload, format) pairs of [paramWithFormat] are
    [a]'s followed by [b]'s.  [A + B] on commands has [A]'s template
    followed by [B]'s, the concatenation of the two parameter lists, and
    as many parameters as [A] and [B] together. *)
Theorem concatenation_keeps_order :
  (forall a b : SqlParameterList.t,
     SqlParameterList.plus a b = SqlParameterList.append a b
     /\ SqlParameterList.params (SqlParameterList.plus a b)
        = SqlParameterList.params a ++ SqlParameterList.params b
     /\ SqlParameterList.formats (SqlParameterList.plus a b)
        = SqlParameterList.formats a ++ SqlParameterList.formats b
     /\ (forall i : nat,
           (i < SqlParameterList.size a)%nat ->
           nth_error (SqlParameterList.params (SqlParameterList.plus a b)) i
           = nth_error (SqlParameterList.params a) i)
     /\ (forall i : nat,
           nth_error (SqlParameterList.params (SqlParameterList.plus a b))
             (SqlParameterList.size a + i)
           = nth_error (SqlParameterList.params b) i)
     /\ (well_formed a -> well_formed b ->
         well_formed (SqlParameterList.plus a b)
         /\ result_of (SqlParameterList.paramWithFormat (SqlParameterList.plus a b))
            = result_of (SqlParameterList.paramWithFormat a)
              ++ result_of (SqlParameterList.paramWithFormat b)))
  /\ (forall A B : Sql.t,
        Sql.plus A B = Sql.append A B
        /\ Sql.command (Sql.plus A B) = Sql.command A ++ Sql.command B
        /\ Sql.params (Sql.plus A B)
           = SqlParameterList.plus (Sql.params A) (Sql.params B)
        /\ SqlParameterList.size (Sql.params (Sql.plus A B))
           = (SqlParameterList.size (Sql.params A)
              + SqlParameterList.size (Sql.params B))%nat).
Proof.
  split.
  - intros a b. unfold SqlParameterList.plus.
    repeat split; try reflexivity.
    + intros i Hi. unfold SqlParameterList.params. simpl.
      apply nth_error_app1. exact Hi.
    + intros i. unfold SqlParameterList.size, SqlParameterList.params. simpl.
      rewrite nth_error_app2 by lia. f_equal. lia.
    + apply append_well_formed; assumption.
    + apply paramWithFormat_append; assumption.
  - intros A B. unfold Sql.plus.
    repeat split; try reflexivity.
    unfold Sql.append, Sql.params. simpl. apply size_append.
Qed.

Lemma concatenation_keeps_order_witness :
  well_formed (Sql.params sql_insert_bound)
  /\ result_of
       (SqlParameterList.paramWithFormat
          (SqlParameterList.plus (Sql.params sql_insert_bound)
             (Sql.params sql_insert_bound)))
     = result_of (SqlParameterList.paramWithFormat (Sql.params sql_insert_bound))
       ++ result_of (SqlParameterList.paramWithFormat (Sql.params sql_insert_bound)).
Proof.
  assert (H : well_formed (Sql.params sql_insert_bound)) by reflexivity.
  split; [exact H|].
  pose proof (proj1 concatenation_keeps_order (Sql.params sql_insert_bound)
                (Sql.params sql_insert_bound)) as (_ & _ & _ & _ & _ & Hpairs).
  exact (proj2 (Hpairs H H)).
Defined.

Example concatenation_is_not_renumbered :
  Sql.command (Sql.plus (Sql.make (bytes "SELECT $1")) (Sql.make (bytes ", $1")))
  = bytes "SELECT $1, $1".
Proof. reflexivity. Qed.

(* ================================================================= *)
(** * Properties of the decoder *)

Lemma Z_of_byte_range (b : byte) : 0 <= Z_of_byte b < 256.
Proof.
  unfold Z_of_byte. pose proof (Byte.to_N_bounded b) as H.
  apply N2Z.inj_le in H. simpl in H. split; [apply N2Z.is_nonneg | lia].
Qed.

Lemma Z_of_byte_of_Z (z : Z) : Z_of_byte (byte_of_Z z) = z mod 256.
Proof.
  unfold byte_of_Z, Z_of_byte.
  assert (Hr : 0 <= z mod 256 < 256) by (apply Z.mod_pos_bound; lia).
  destruct (Byte.of_N (Z.to_N (z mod 256))) as [b|] eqn:E.
  - apply Byte.to_of_N in E. rewrite E. apply Z2N.id. lia.
  - apply Byte.of_N_None_iff in E.
    apply N2Z.inj_lt in E. rewrite Z2N.id in E by lia. simpl in E. lia.
Qed.

(** Shifting a byte in is multiplying by 256 and adding it. *)
Lemma shift_in_arith (acc : Z) (b : byte) :
  shift_in acc b = acc * 256 + Z_of_byte b.
Proof.
  unfold shift_in.
  assert (Hland : Z.land (Z.shiftl acc 8) (Z_of_byte b) = 0).
  { apply Z.bits_inj'. intros n Hn.
    rewrite Z.land_spec, Z.bits_0.
    destruct (Z.ltb_spec n 8) as [Hlt|Hge].
    - rewrite Z.shiftl_spec_low by exact Hlt. reflexivity.
    - rewrite <- (Z.mod_small (Z_of_byte b) (2 ^ 8))
        by (change (2 ^ 8) with 256; apply Z_of_byte_range).
      rewrite Z.mod_pow2_bits_high by lia. apply andb_false_r. }
  pose proof (Z.add_lor_land (Z.shiftl acc 8) (Z_of_byte b)) as H.
  rewrite Hland in H.
  rewrite Z.shiftl_mul_pow2 in * by (intro; discriminate).
  change (2 ^ 8) with 256 in *. lia.
Qed.

Lemma fold_shift_in (l : list byte) : forall acc,
  fold_left shift_in l acc = acc * 256 ^ Z.of_nat (length l) + spec_be_value l.
Proof.
  induction l as [|b l IH]; intros acc.
  - simpl. lia.
  - cbn [fold_left spec_be_value length]. rewrite IH, shift_in_arith.
    rewrite Nat2Z.inj_succ, Z.pow_succ_r by lia. ring.
Qed.

Lemma length_spec_be_encode (n : nat) (u : Z) : length (spec_be_encode n u) = n.
Proof. induction n as [|k IH]; simpl; [reflexivity | now rewrite IH]. Qed.

Lemma spec_be_value_encode (n : nat) (u : Z) :
  spec_be_value (spec_be_encode n u) = u mod 256 ^ Z.of_nat n.
Proof.
  induction n as [|k IH].
  - simpl. now rewrite Z.mod_1_r.
  - cbn [spec_be_encode spec_be_value].
    rewrite IH, length_spec_be_encode, Z_of_byte_of_Z.
    rewrite Nat2Z.inj_succ, Z.pow_succ_r by lia.
    rewrite (Z.mul_comm 256), Z.rem_mul_r by lia. ring.
Qed.

Lemma pow_256 (n : nat) : 256 ^ Z.of_nat n = 2 ^ (8 * Z.of_nat n).
Proof. rewrite Z.pow_mul_r by lia. reflexivity. Qed.

(** Reading back a two's complement pattern. *)
Lemma reinterpret_pattern (T : IntType) (v : Z) :
  spec_in_range T v -> reinterpret T (v mod 2 ^ bit_width T) = v.
Proof.
  unfold spec_in_range, reinterpret.
  destruct (is_signed T); simpl; intros Hr.
  - assert (Hw : 0 < bit_width T).
    { destruct (Z.ltb_spec 0 (bit_width T)) as [H|H]; [exact H|].
      rewrite (Z.pow_neg_r 2 (bit_width T - 1)) in Hr by lia. lia. }
    assert (Hp : 2 ^ bit_width T = 2 * 2 ^ (bit_width T - 1)).
    { rewrite <- Z.pow_succ_r by lia. f_equal. lia. }
    destruct (Z.ltb_spec v 0) as [Hneg|Hpos].
    + rewrite <- (Z.mod_add v 1) by lia.
      rewrite Z.mod_small by lia.
      destruct (Z.leb_spec (2 ^ (bit_width T - 1)) (v + 1 * 2 ^ bit_width T)); lia.
    + rewrite Z.mod_small by lia.
      destruct (Z.leb_spec (2 ^ (bit_width T - 1)) v); lia.
  - apply Z.mod_small. exact Hr.
Qed.

(** [qFromBigEndian] is the big-endian reading of [sizeof (T)] bytes. *)
Lemma qFromBigEndian_spec (T : IntType) (src : list byte) :
  length src = sizeof T ->
  qFromBigEndian T src = reinterpret T (spec_be_value src).
Proof.
  intros Hlen. unfold qFromBigEndian.
  rewrite <- Hlen, firstn_all, fold_shift_in. reflexivity.
Qed.

Lemma qFromBigEndian_encode (T : IntType) (v : Z) :
  spec_in_range T v -> qFromBigEndian T (spec_encode T v) = v.
Proof.
  intros Hr. unfold spec_encode.
  rewrite qFromBigEndian_spec by apply length_spec_be_encode.
  rewrite spec_be_value_encode, pow_256.
  fold (bit_width T). rewrite Z.mod_mod by (apply Z.pow_nonzero; unfold bit_width; lia).
  apply reinterpret_pattern. exact Hr.
Qed.

(** [value<T>] in terms of the cell it is asked for. *)
Lemma value_int_cell (T : IntType) (res : option PGresult) (row column : Z) :
  value_int T res row column
  = match cell_at res (int_of_uint32 row) (int_of_uint32 column) with
    | Some c =>
        if negb (cell_isnull c) && Nat.eqb (length (cell_bytes c)) (sizeof T)
        then reinterpret T (spec_be_value (cell_bytes c))
        else 0
    | None => 0
    end.
Proof.
  unfold value_int, PQgetisnull, PQgetlength, PQgetvalue.
  destruct (cell_at res (int_of_uint32 row) (int_of_uint32 column)) as [c|];
    [|reflexivity].
  destruct (cell_isnull c); simpl; [reflexivity|].
  destruct (Nat.eqb_spec (length (cell_bytes c)) (sizeof T)) as [E|E].
  - rewrite E, Z.eqb_refl. apply qFromBigEndian_spec. exact E.
  - destruct (Z.eqb_spec (Z.of_nat (length (cell_bytes c))) (Z.of_nat (sizeof T)));
      [lia | reflexivity].
Qed.

Lemma value_int_encode (T : IntType) (res : option PGresult) (row column v : Z) :
  spec_in_range T v ->
  cell_at res (int_of_uint32 row) (int_of_uint32 column)
  = Some (mkCell false (spec_encode T v)) ->
  value_int T res row column = v.
Proof.
  intros Hr Hcell. rewrite value_int_cell, Hcell. simpl.
  unfold spec_encode at 1. rewrite length_spec_be_encode, Nat.eqb_refl.
  rewrite <- qFromBigEndian_spec
    by (unfold spec_encode; apply length_spec_be_encode).
  apply qFromBigEndian_encode. exact Hr.
Qed.

(** C5. [value<T>] at an integer type [T] is the big-endian reading of
    the cell's bytes, as a [T], when the cell is not null and has
    [sizeof (T)] bytes, and 0 otherwise (a cell out of range counts as
    null); so decoding the [sizeof (T)]-byte big-endian encoding of a
    value [v] of [T] from a cell that is not null gives [v]. *)
Theorem value_reads_big_endian :
  forall (T : IntType) (res : option PGresult) (row column : Z),
    value_int T res row column
    = match cell_at res (int_of_uint32 row) (int_of_uint32 column) with
      | Some c =>
          if negb (cell_isnull c) && Nat.eqb (length (cell_bytes c)) (sizeof T)
          then reinterpret T (spec_be_value (cell_bytes c))
          else 0
      | None => 0
      end
    /\ (forall v : Z,
          spec_in_range T v ->
          cell_at res (int_of_uint32 row) (int_of_uint32 column)
          = Some (mkCell false (spec_encode T v)) ->
          value_int T res row column = v).
Proof.
  intros T res row column. split; [apply value_int_cell|].
  intros v. apply value_int_encode.
Qed.

Lemma value_reads_big_endian_witness :
  spec_in_range int32_t 7
  /\ cell_at (Some res_1x2) (int_of_uint32 0) (int_of_uint32 0)
     = Some (mkCell false (spec_encode int32_t 7))
  /\ value_int int32_t (Some res_1x2) 0 0 = 7.
Proof.
  assert (Hr : spec_in_range int32_t 7) by (vm_compute; split; congruence).
  assert (Hc : cell_at (Some res_1x2) (int_of_uint32 0) (int_of_uint32 0)
               = Some (mkCell false (spec_encode int32_t 7))) by reflexivity.
  split; [exact Hr|]. split; [exact Hc|].
  exact (proj2 (value_reads_big_endian int32_t (Some res_1x2) 0 0) 7 Hr Hc).
Defined.

Lemma value_QDateTime_encode (res : option PGresult) (row column usecs : Z) :
  spec_in_range int64_t usecs ->
  cell_at res (int_of_uint32 row) (int_of_uint32 column)
  = Some (mkCell false (spec_encode int64_t usecs)) ->
  value_QDateTime res row column = addMSecs epoch2000 (Z.quot usecs 1000).
Proof.
  intros Hr Hcell. unfold value_QDateTime.
  now rewrite (value_int_encode int64_t res row column usecs Hr Hcell).
Qed.

(** The claim of C6 as the specification words it fails for an instant
    before the epoch that is not a whole number of milliseconds: one
    microsecond before 2000-01-01T00:00:00 decodes to the epoch itself,
    not to the millisecond before it. *)
Lemma datetime_round_trip_not_truncation :
  ~ (forall (res : option PGresult) (row column usecs : Z),
       spec_in_range int64_t usecs ->
       cell_at res (int_of_uint32 row) (int_of_uint32 column)
       = Some (mkCell false (spec_encode int64_t usecs)) ->
       value_QDateTime res row column = spec_truncate_to_msecs usecs).
Proof.
  intros H.
  assert (Hr : spec_in_range int64_t (-1)) by (vm_compute; split; congruence).
  specialize (H (Some res_1x2) 0 1 (-1) Hr eq_refl).
  vm_compute in H. discriminate H.
Qed.

(** C6, amended. Decoding the 8-byte big-endian count [usecs] of
    microseconds since 2000-01-01T00:00:00 gives the epoch plus
    [usecs / 1000] milliseconds, the quotient rounded toward zero.  That is
    the instant truncated to millisecond precision when it is not before
    the epoch or is a whole number of milliseconds; for an earlier instant
    with a fraction of a millisecond it is one millisecond later than the
    truncated instant. *)
Theorem datetime_round_trip :
  forall (res : option PGresult) (row column usecs : Z),
    spec_in_range int64_t usecs ->
    cell_at res (int_of_uint32 row) (int_of_uint32 column)
    = Some (mkCell false (spec_encode int64_t usecs)) ->
    value_QDateTime res row column = addMSecs epoch2000 (Z.quot usecs 1000)
    /\ (0 <= usecs \/ usecs mod 1000 = 0 ->
        value_QDateTime res row column = spec_truncate_to_msecs usecs)
    /\ (usecs < 0 -> usecs mod 1000 <> 0 ->
        value_QDateTime res row column
        = addMSecs (spec_truncate_to_msecs usecs) 1).
Proof.
  intros res row column usecs Hr Hcell.
  rewrite (value_QDateTime_encode res row column usecs Hr Hcell).
  unfold spec_truncate_to_msecs, epoch2000, addMSecs.
  split; [reflexivity|]. split.
  - intros H. f_equal. f_equal.
    Z.to_euclidean_division_equations; lia.
  - intros Hneg Hfrac. f_equal.
    Z.to_euclidean_division_equations; lia.
Qed.

Lemma datetime_round_trip_witness :
  spec_in_range int64_t (-1)
  /\ cell_at (Some res_1x2) (int_of_uint32 0) (int_of_uint32 1)
     = Some (mkCell false (spec_encode int64_t (-1)))
  /\ value_QDateTime (Some res_1x2) 0 1 = epoch2000.
Proof.
  assert (Hr : spec_in_range int64_t (-1)) by (vm_compute; split; congruence).
  assert (Hc : cell_at (Some res_1x2) (int_of_uint32 0) (int_of_uint32 1)
               = Some (mkCell false (spec_encode int64_t (-1)))) by reflexivity.
  split; [exact Hr|]. split; [exact Hc|].
  exact (proj1 (datetime_round_trip (Some res_1x2) 0 1 (-1) Hr Hc)).
Defined.

(* ================================================================= *)
(** * Properties of the cursor *)

(** C7. [to<T>] on a column-view that is bound to no result, or whose
    column index is not below the result's column count, is [T ()], for
    every target type [T]; [to] is a total function, so the call
    returns. *)
Theorem to_out_of_range_is_default :
  forall (qt : QtRuntime) (T : Target) (c : PgRowColumn.t),
    PgRowColumn.result_ c = None
    \/ (exists r, PgRowColumn.result_ c = Some r
                  /\ PgResult.columnCount r <= PgRowColumn.column_ c) ->
    PgRowColumn.to T c = default_value T.
Proof.
  intros qt T c [Hnone | (r & Hsome & Hrange)]; unfold PgRowColumn.to.
  - rewrite Hnone. reflexivity.
  - rewrite Hsome.
    destruct (Z.ltb_spec (PgRowColumn.column_ c) (PgResult.columnCount r));
      [lia | reflexivity].
Qed.

Lemma to_out_of_range_is_default_witness :
  PgResult.columnCount result_1x2 <= 2
  /\ PgRowColumn.to (qt := qt_latin1) (TInt int32_t)
       (PgRowColumn.mk (Some result_1x2) 0 2) = 0.
Proof.
  assert (H : PgResult.columnCount result_1x2 <= 2) by (simpl; lia).
  split; [exact H|].
  apply (to_out_of_range_is_default qt_latin1 (TInt int32_t)
           (PgRowColumn.mk (Some result_1x2) 0 2)).
  right. exists result_1x2. split; [reflexivity | exact H].
Defined.

(** C10. [operator []] tests nothing: for every index [i] it gives a row
    bound to the result with row index [i], whose [size ()] is the
    result's column count.  [at (i)] and [row (i)] give the same row when
    [i] is below [rowCount ()], and otherwise the row [PgRow ()], bound
    to no result and of size 0. *)
Theorem subscript_is_unchecked :
  forall (r : PgResult.t) (i : Z),
    PgRow.result_ (PgResultRows.subscript r i) = Some r
    /\ PgRow.row_ (PgResultRows.subscript r i) = i
    /\ PgRow.size (PgResultRows.subscript r i) = PgResult.columnCount r
    /\ PgResultRows.row r i = PgResultRows.at_ r i
    /\ (if i <? PgResult.rowCount r
        then PgResultRows.at_ r i = PgResultRows.subscript r i
        else PgResultRows.at_ r i = PgRow.empty
             /\ PgRow.result_ (PgResultRows.at_ r i) = None
             /\ PgRow.size (PgResultRows.at_ r i) = 0
             /\ PgRow.is_empty (PgResultRows.at_ r i) = true).
Proof.
  intros r i. repeat (split; [reflexivity|]).
  unfold PgResultRows.at_, PgResult.size.
  destruct (i <? PgResult.rowCount r); [reflexivity|].
  repeat split.
Qed.

Example subscript_past_the_end :
  PgResult.rowCount result_1x2 = 1
  /\ PgRow.size (PgResultRows.subscript result_1x2 5) = 2
  /\ PgRow.size (PgResultRows.at_ result_1x2 5) = 0.
Proof. repeat split. Qed.

(** Iterating over the rows of a result works: the row indices from 0
    up to [rowCount ()] are visited, and the cursor then equals [end ()]. *)
Lemma row_cursor_visits_from (res : option PgResult.t) (n : nat) :
  Z.of_nat n < 2 ^ 32 ->
  forall (d k fuel : nat),
    (k + d = n)%nat -> (d < fuel)%nat ->
    visit PgRow.next PgRow.eqb PgRow.row_ fuel
      (PgRow.mk res (Z.of_nat k)) (PgRow.mk res (Z.of_nat n))
    = map Z.of_nat (seq k d).
Proof.
  intros Hn. induction d as [|d IH]; intros k fuel Hk Hfuel;
    destruct fuel as [|fuel]; try lia; simpl.
  - unfold PgRow.eqb. simpl.
    replace k with n by lia. rewrite Z.eqb_refl. reflexivity.
  - unfold PgRow.eqb. simpl.
    destruct (Z.eqb_spec (Z.of_nat k) (Z.of_nat n)) as [E|_]; [lia|].
    f_equal. unfold PgRow.next. simpl.
    replace (uint32_incr (Z.of_nat k)) with (Z.of_nat (S k)).
    + apply IH; lia.
    + unfold uint32_incr. rewrite to_uint32_small; lia.
Qed.

Lemma row_cursor_visits_rows (r : PgResult.t) (n fuel : nat) :
  PgResult.rowCount r = Z.of_nat n -> Z.of_nat n < 2 ^ 32 -> (n < fuel)%nat ->
  visit PgRow.next PgRow.eqb PgRow.row_ fuel
    (PgResultRows.begin r) (PgResultRows.end_ r)
  = map Z.of_nat (seq 0 n).
Proof.
  intros Hrows Hn Hfuel. unfold PgResultRows.begin, PgResultRows.end_, PgResult.size.
  rewrite Hrows. apply (row_cursor_visits_from (Some r) n Hn n 0%nat fuel); lia.
Qed.

Lemma advance_column_view (c : PgRowColumn.t) (n : nat) :
  PgRowColumn.column_ (advance PgRowColumn.next n c) = PgRowColumn.column_ c
  /\ PgRowColumn.result_ (advance PgRowColumn.next n c) = PgRowColumn.result_ c.
Proof.
  induction n as [|n [IH1 IH2]]; simpl; [split; reflexivity|].
  split; assumption.
Qed.

Lemma visit_stuck {A} (next : A -> A) (eqb : A -> A -> bool) (index : A -> Z)
    (last : A) (i : Z) :
  (forall c, index c = i -> eqb c last = false /\ index (next c) = i) ->
  forall fuel c, index c = i ->
    visit next eqb index fuel c last = repeat i fuel.
Proof.
  intros Hstep. induction fuel as [|fuel IH]; intros c Hc; simpl; [reflexivity|].
  destruct (Hstep c Hc) as [-> Hnext]. rewrite Hc, IH by exact Hnext.
  reflexivity.
Qed.

(** C1 (where the code departs from the claim). A column-view that is
    incremented keeps its column index: [next] increments the row index,
    and [operator ==] compares column indices.  So after any number of
    increments the view started at [begin ()] is still at column 0, and
    it equals [end ()] only for a row with no columns.  On a row of a
    result with two columns the loop from [begin ()] to [end ()] visits
    column 0 again and again; after two increments the view is at row 2,
    column 0, and differs from [end ()]. *)
Theorem column_view_next_keeps_column :
  (forall (r : PgRow.t) (n : nat),
     PgRowColumn.column_ (advance PgRowColumn.next n (PgRow.begin r)) = 0
     /\ PgRowColumn.eqb (advance PgRowColumn.next n (PgRow.begin r)) (PgRow.end_ r)
        = (PgRow.size r =? 0))
  /\ (forall fuel : nat,
        visit PgRowColumn.next PgRowColumn.eqb PgRowColumn.column_ fuel
          (PgRow.begin (PgResultRows.subscript result_1x2 0))
          (PgRow.end_ (PgResultRows.subscript result_1x2 0))
        = repeat 0 fuel)
  /\ advance PgRowColumn.next 2 (PgRow.begin (PgResultRows.subscript result_1x2 0))
     = PgRowColumn.mk (Some result_1x2) 2 0
  /\ PgRowColumn.eqb
       (advance PgRowColumn.next 2
          (PgRow.begin (PgResultRows.subscript result_1x2 0)))
       (PgRow.end_ (PgResultRows.subscript result_1x2 0)) = false.
Proof.
  split; [|split; [|split; reflexivity]].
  - intros r n.
    destruct (advance_column_view (PgRow.begin r) n) as [Hc _].
    split; [exact Hc|].
    unfold PgRowColumn.eqb. rewrite Hc. simpl.
    destruct (PgRow.size r); reflexivity.
  - intros fuel. apply visit_stuck; [|reflexivity].
    intros c Hc. unfold PgRowColumn.eqb. rewrite Hc. split; [reflexivity|exact Hc].
Qed.

Example rows_of_result_1x2 :
  visit PgRow.next PgRow.eqb PgRow.row_ 5
    (PgResultRows.begin result_1x2) (PgResultRows.end_ result_1x2) = [0].
Proof. reflexivity. Qed.

(* ================================================================= *)
(** * Properties of the executor *)

Lemma exec_invalid {pq : Libpq} (conn : option PGconn) (sql_ : Sql.t)
    (error : option QString) :
  Sql.valid sql_ = false ->
  exec conn sql_ error
  = ((None, match error with
            | Some _ => Some "Sql - Too many parameters"
            | None => None
            end),
     [EvWarning "Sql - Too many parameters"]).
Proof. intros H. unfold exec. rewrite H. reflexivity. Qed.

Lemma valid_well_formed (s : Sql.t) :
  Sql.valid s = true -> well_formed (Sql.params s).
Proof.
  intros H. apply valid_unfold in H. destruct H as (_ & _ & H3 & H4 & _).
  unfold well_formed. congruence.
Qed.

Lemma debug_valid (s : Sql.t) :
  Sql.valid s = true -> Sql.debug s = (tt, [EvDebug (rendered s)]).
Proof.
  intros H. unfold Sql.debug.
  rewrite (paramWithFormat_well_formed (Sql.params_ s))
    by (apply valid_well_formed; exact H).
  reflexivity.
Qed.

Lemma exec_valid_trace {pq : Libpq} (conn : option PGconn) (sql_ : Sql.t)
    (error : option QString) :
  Sql.valid sql_ = true ->
  exists (submission : Event) (rest : list Event),
    trace_of (exec conn sql_ error)
    = EvDebug (rendered sql_) :: submission :: rest
    /\ is_submission submission = true.
Proof.
  intros H. unfold exec. rewrite H, (debug_valid sql_ H). simpl negb. cbv iota.
  unfold call_PQexecParams, errorReport, qWarning, emit, ret, bind, trace_of.
  destruct (PQexecParams _ _ _ _ _ _ _) as [r|].
  - destruct (isFailStatus (PQresultStatus r));
      simpl; eexists; eexists; split; reflexivity.
  - simpl. eexists; eexists; split; reflexivity.
Qed.

(** C4. For a command that is not valid, [exec] returns the null handle,
    writes the message "Sql - Too many parameters" through the error
    pointer when one is given, logs that message as a warning and nothing
    else: [PQexecParams] is not called. *)
Theorem exec_rejects_invalid :
  forall (pq : Libpq) (conn : option PGconn) (sql_ : Sql.t)
         (error : option QString),
    Sql.valid sql_ = false ->
    fst (result_of (exec conn sql_ error)) = None
    /\ snd (result_of (exec conn sql_ error))
       = option_map (fun _ => "Sql - Too many parameters") error
    /\ trace_of (exec conn sql_ error) = [EvWarning "Sql - Too many parameters"]
    /\ spec_no_round_trip (trace_of (exec conn sql_ error)) = true.
Proof.
  intros pq conn sql_ error H. rewrite (exec_invalid conn sql_ error H).
  destruct error; repeat split.
Qed.

Lemma exec_rejects_invalid_witness :
  Sql.valid sql_insert = false
  /\ result_of (exec (pq := pq_const) (Some tt) sql_insert (Some EmptyString))
     = (None, Some "Sql - Too many parameters")
  /\ trace_of (exec (pq := pq_const) (Some tt) sql_insert (Some EmptyString))
     = [EvWarning "Sql - Too many parameters"].
Proof.
  assert (H : Sql.valid sql_insert = false) by reflexivity.
  pose proof (exec_rejects_invalid pq_const (Some tt) sql_insert
                (Some EmptyString) H) as (H1 & H2 & H3 & _).
  split; [exact H|]. split; [|exact H3].
  destruct (result_of (exec (pq := pq_const) (Some tt) sql_insert
                         (Some EmptyString))) as [h e].
  simpl in H1, H2. now subst.
Defined.

(** The claim of C8 as the specification words it fails: for a command
    that is not valid nothing is logged but the rejection. *)
Lemma debug_not_logged_when_rejected :
  ~ (forall (pq : Libpq) (conn : option PGconn) (sql_ : Sql.t)
            (error : option QString),
       spec_debug_logged_first (trace_of (exec conn sql_ error)) = true).
Proof.
  intros H. specialize (H pq_const (Some tt) sql_insert None).
  vm_compute in H. discriminate H.
Qed.

(** C8, amended. For every call of [exec] with a valid command the
    rendered debug form is logged first and the submission follows it
    immediately, whatever libpq then answers. *)
Theorem exec_logs_debug_before_submission :
  forall (pq : Libpq) (conn : option PGconn) (sql_ : Sql.t)
         (error : option QString),
    Sql.valid sql_ = true ->
    spec_debug_logged_first (trace_of (exec conn sql_ error)) = true
    /\ exists (submission : Event) (rest : list Event),
         trace_of (exec conn sql_ error)
         = EvDebug (rendered sql_) :: submission :: rest
         /\ is_submission submission = true.
Proof.
  intros pq conn sql_ error H.
  destruct (exec_valid_trace conn sql_ error H) as (sub & rest & Ht & Hs).
  split; [rewrite Ht; reflexivity|].
  exists sub, rest. split; assumption.
Qed.

Lemma exec_logs_debug_before_submission_witness :
  Sql.valid sql_insert_bound = true
  /\ spec_debug_logged_first
       (trace_of (exec (pq := pq_const) (Some tt) sql_insert_bound None)) = true.
Proof.
  assert (H : Sql.valid sql_insert_bound = true) by reflexivity.
  split; [exact H|].
  exact (proj1 (exec_logs_debug_before_submission pq_const (Some tt)
                  sql_insert_bound None H)).
Defined.

Example exec_trace_of_insert :
  trace_of (exec (pq := pq_const) (Some tt) sql_insert_bound None)
  = [EvDebug (bytes "INSERT INTO t VALUES (name, $2)");
     EvExecParams (bytes "INSERT INTO t VALUES ($1, $2)") 2
       (Some [bytes "name"; [x01; x02]]) (Some [4; 2]) (Some [0; 1]) 1].
Proof. reflexivity. Qed.

(* ================================================================= *)
(** * Chains of arguments and composed commands *)

Lemma result_of_bind {A B} (m : Log A) (k : A -> Log B) :
  result_of (bind m k) = result_of (k (result_of m)).
Proof. destruct m as [a t]. unfold bind. simpl. destruct (k a); reflexivity. Qed.

Lemma trace_of_bind {A B} (m : Log A) (k : A -> Log B) :
  trace_of (bind m k) = trace_of m ++ trace_of (k (result_of m)).
Proof. destruct m as [a t]. unfold bind. simpl. destruct (k a); reflexivity. Qed.

Lemma accepted_cons {qt : QtRuntime} (a : SqlParameterList.Arg)
    (l : list SqlParameterList.Arg) :
  accepted (a :: l)
  = if spec_is_empty a then accepted l else S (accepted l).
Proof. unfold accepted. simpl. destruct (spec_is_empty a); reflexivity. Qed.

Lemma bind_nil {A B} (a : A) (k : A -> Log B) : bind (a, []) k = k a.
Proof. unfold bind. destruct (k a); reflexivity. Qed.

(** A chain extends the list by one pair for each accepted argument and
    logs one warning for each of the others. *)
Lemma args_extend {qt : QtRuntime} (l : list SqlParameterList.Arg) :
  forall p : SqlParameterList.t,
  exists (ps : list QByteArray) (fs : list Z),
    SqlParameterList.params (result_of (SqlParameterList_args p l))
    = SqlParameterList.params p ++ ps
    /\ SqlParameterList.formats (result_of (SqlParameterList_args p l))
       = SqlParameterList.formats p ++ fs
    /\ length ps = accepted l
    /\ length fs = accepted l
    /\ (length (trace_of (SqlParameterList_args p l)) + accepted l)%nat = length l.
Proof.
  induction l as [|a l IH]; intros p.
  - exists [], []. simpl. rewrite !app_nil_r. repeat split.
  - cbn [SqlParameterList_args]. rewrite result_of_bind, trace_of_bind.
    destruct (arg_cases p a) as [d Hd]. rewrite Hd, accepted_cons.
    destruct (spec_is_empty a); cbn [negb result_of trace_of fst snd].
    + destruct (IH p) as (ps & fs & H1 & H2 & H3 & H4 & H5).
      exists ps, fs. repeat split; try assumption.
      cbn [length app]. lia.
    + destruct (IH (SqlParameterList.push p d (spec_format_tag a)))
        as (ps & fs & H1 & H2 & H3 & H4 & H5).
      exists (d :: ps), (spec_format_tag a :: fs).
      split; [|split; [|split; [|split]]]; simpl; try lia.
      * rewrite H1. unfold SqlParameterList.push, SqlParameterList.params.
        simpl. now rewrite <- app_assoc.
      * rewrite H2. unfold SqlParameterList.push, SqlParameterList.formats.
        simpl. now rewrite <- app_assoc.
Qed.

(** X1. A parameter list that obeys the invariant still does after any
    chain of [arg] calls: the chain leaves the entries it found in place,
    appends one payload and one format tag for each argument that is not
    empty, logs one warning for each empty one, and [paramWithFormat ()]
    then gives [size ()] pairs without a warning. *)
Theorem args_keep_invariant :
  forall (qt : QtRuntime) (p : SqlParameterList.t)
         (l : list SqlParameterList.Arg),
    well_formed p ->
    let r := result_of (SqlParameterList_args p l) in
    well_formed r
    /\ SqlParameterList.size r = (SqlParameterList.size p + accepted l)%nat
    /\ firstn (SqlParameterList.size p) (SqlParameterList.params r)
       = SqlParameterList.params p
    /\ firstn (SqlParameterList.size p) (SqlParameterList.formats r)
       = SqlParameterList.formats p
    /\ (length (trace_of (SqlParameterList_args p l)) + accepted l)%nat = length l
    /\ trace_of (SqlParameterList.paramWithFormat r) = []
    /\ length (result_of (SqlParameterList.paramWithFormat r))
       = SqlParameterList.size r.
Proof.
  intros qt p l Hp r. subst r.
  destruct (args_extend l p) as (ps & fs & H1 & H2 & H3 & H4 & H5).
  set (r := result_of (SqlParameterList_args p l)) in *.
  assert (Hr : well_formed r).
  { unfold well_formed in *. rewrite H1, H2, !length_app. lia. }
  split; [exact Hr|].
  split; [unfold SqlParameterList.size; rewrite H1, length_app; lia|].
  split; [unfold SqlParameterList.size; rewrite H1;
          now rewrite firstn_app, Nat.sub_diag, firstn_all, app_nil_r|].
  split; [unfold SqlParameterList.size; rewrite H2, Hp;
          now rewrite firstn_app, Nat.sub_diag, firstn_all, app_nil_r|].
  split; [exact H5|].
  rewrite (paramWithFormat_well_formed r Hr). split; [reflexivity|].
  simpl. unfold SqlParameterList.size.
  clear - Hr. unfold well_formed in Hr.
  revert Hr. generalize (SqlParameterList.formats r).
  induction (SqlParameterList.params r) as [|x xs IH]; intros [|f fs] H;
    simpl in *; try discriminate; [reflexivity|].
  f_equal. apply IH. lia.
Qed.

Lemma args_keep_invariant_witness :
  well_formed SqlParameterList.empty
  /\ SqlParameterList.size
       (result_of
          (SqlParameterList_args (qt := qt_latin1) SqlParameterList.empty
             [SqlParameterList.ArgQString "name";
              SqlParameterList.ArgQString EmptyString;
              SqlParameterList.ArgByteArray [x01]])) = 2%nat.
Proof.
  assert (H : well_formed SqlParameterList.empty) by reflexivity.
  split; [exact H|].
  exact (proj1 (proj2 (args_keep_invariant qt_latin1 SqlParameterList.empty
                         [SqlParameterList.ArgQString "name";
                          SqlParameterList.ArgQString EmptyString;
                          SqlParameterList.ArgByteArray [x01]] H))).
Defined.

Lemma sql_args_params {qt : QtRuntime} (l : list SqlParameterList.Arg) :
  forall s : Sql.t,
    result_of (Sql_args s l)
    = Sql.mk (Sql.command s)
        (result_of (SqlParameterList_args (Sql.params s) l)).
Proof.
  induction l as [|a l IH]; intros s.
  - destruct s; reflexivity.
  - cbn [Sql_args SqlParameterList_args]. rewrite !result_of_bind.
    rewrite IH. unfold Sql.arg. rewrite result_of_bind. reflexivity.
Qed.

(** X2. A command made from a template and a chain of arguments is
    valid exactly when the template is not empty and the number of
    arguments that are not empty is below [INT_MAX] and equals
    [parseParamsCount ()]: each empty argument leaves the command one
    parameter short. *)
Theorem chain_valid_iff :
  forall (qt : QtRuntime) (template : QByteArray)
         (l : list SqlParameterList.Arg),
    Sql.valid (result_of (Sql_args (Sql.make template) l)) = true <->
    template <> []
    /\ Z.of_nat (accepted l) < INT_MAX
    /\ Z.of_nat (accepted l) = Sql.parseParamsCount (Sql.make template).
Proof.
  intros qt template l. rewrite sql_args_params, valid_unfold.
  destruct (args_extend l (Sql.params (Sql.make template)))
    as (ps & fs & H1 & H2 & H3 & H4 & _).
  unfold Sql.params, Sql.command, SqlParameterList.size in *. simpl in *.
  rewrite H1, H2, H3, H4. unfold Sql.parseParamsCount. simpl.
  split.
  - intros (Ha & Hb & _ & _ & He). auto.
  - intros (Ha & Hb & He). auto.
Qed.

Lemma QByteArray_count_app (c : byte) (a b : QByteArray) :
  QByteArray_count c (a ++ b) = QByteArray_count c a + QByteArray_count c b.
Proof. unfold QByteArray_count. rewrite count_occ_app. lia. Qed.

(** X3. Two valid commands whose parameters together stay below
    [INT_MAX] concatenate to a valid command. *)
Theorem plus_of_valid_is_valid :
  forall A B : Sql.t,
    Sql.valid A = true -> Sql.valid B = true ->
    Z.of_nat (SqlParameterList.size (Sql.params A)
              + SqlParameterList.size (Sql.params B)) < INT_MAX ->
    Sql.valid (Sql.plus A B) = true.
Proof.
  intros A B HA HB Hsum.
  apply valid_unfold in HA. destruct HA as (A1 & A2 & A3 & A4 & A5).
  apply valid_unfold in HB. destruct HB as (B1 & B2 & B3 & B4 & B5).
  apply valid_unfold. unfold Sql.plus, Sql.append, Sql.command, Sql.params in *.
  simpl. rewrite size_append.
  unfold SqlParameterList.params, SqlParameterList.formats, SqlParameterList.size in *.
  simpl in *. unfold SqlParameterList.params in *. rewrite !length_app.
  repeat split; try lia.
  - destruct (Sql.command_ A); [congruence | discriminate].
  - unfold Sql.parseParamsCount in *. simpl.
    rewrite QByteArray_count_app. unfold to_uint32 in *.
    rewrite Nat2Z.inj_add.
    rewrite (Zplus_mod (QByteArray_count Sql.paramPrefix (Sql.command_ A))).
    rewrite <- A5, <- B5.
    unfold INT_MAX in *. rewrite Nat2Z.inj_add in Hsum.
    symmetry. apply Z.mod_small. lia.
Qed.

Lemma plus_of_valid_is_valid_witness :
  Sql.valid (Sql.plus sql_insert_bound sql_insert_bound) = true.
Proof.
  apply plus_of_valid_is_valid; reflexivity.
Defined.

(** X4. Text appended to a valid command ([operator +=] with a byte
    array, a C string or a character) keeps it valid exactly when the
    text holds no ['$']: the parameters stay as they are, so every marker
    added is one placeholder too many. *)
Theorem append_text_valid_iff :
  forall (s : Sql.t) (text : QByteArray),
    Sql.valid s = true ->
    Z.of_nat (length text) < 2 ^ 32 ->
    Sql.params (Sql.append_text s text) = Sql.params s
    /\ (Sql.valid (Sql.append_text s text) = true
        <-> spec_placeholder_count text = 0%nat).
Proof.
  intros s text Hs Hlen. split; [reflexivity|].
  apply valid_unfold in Hs. destruct Hs as (S1 & S2 & S3 & S4 & S5).
  rewrite valid_unfold.
  unfold Sql.append_text, Sql.command, Sql.params, Sql.parseParamsCount in *.
  simpl. rewrite QByteArray_count_app, (count_is_placeholder_count text).
  pose proof (placeholder_count_le_length text) as Hle.
  set (k := spec_placeholder_count text) in *.
  set (c := QByteArray_count Sql.paramPrefix (Sql.command_ s)) in *.
  assert (Hc : 0 <= c) by (unfold c, QByteArray_count; lia).
  unfold to_uint32, INT_MAX in *.
  change (2 ^ 32) with 4294967296 in *. change (2 ^ 31 - 1) with 2147483647 in *.
  split.
  - intros (_ & _ & _ & _ & H5). rewrite S5 in H5.
    Z.to_euclidean_division_equations. lia.
  - intros Hk. rewrite Hk, Z.add_0_r.
    repeat split; try assumption.
    destruct (Sql.command_ s); [congruence | discriminate].
Qed.

Lemma append_text_valid_iff_witness :
  Sql.valid (Sql.append_text sql_insert_bound (bytes " RETURNING id")) = true.
Proof.
  apply (proj2 (append_text_valid_iff sql_insert_bound (bytes " RETURNING id")
                  eq_refl eq_refl)).
  reflexivity.
Defined.

(* ================================================================= *)
(** * The debug rendering *)

Lemma spec_placeholder_count_app (a b : list byte) :
  spec_placeholder_count (a ++ b)
  = (spec_placeholder_count a + spec_placeholder_count b)%nat.
Proof.
  induction a as [|c a IH]; simpl; [reflexivity|].
  destruct (Byte.eqb c x24); simpl; now rewrite IH.
Qed.

(** A scan for a marker walks over text that holds no ['$']. *)
Lemma replace_pass (n after pre rest : list byte) :
  spec_placeholder_count pre = 0%nat ->
  replace_from 0 (x24 :: n) after (pre ++ rest)
  = pre ++ replace_from 0 (x24 :: n) after rest.
Proof.
  induction pre as [|c pre IH]; intros H; [reflexivity|].
  simpl in H. destruct (Byte.eqb c x24) eqn:E; [discriminate|].
  assert (E' : Byte.eqb x24 c = false).
  { destruct (Byte.eqb x24 c) eqn:E'; [|reflexivity].
    apply byte_eqb_eq in E'. subst c. discriminate. }
  cbn [app replace_from is_prefix]. rewrite E'. simpl. now rewrite IH.
Qed.

Lemma replace_no_marker (n after s : list byte) :
  spec_placeholder_count s = 0%nat ->
  replace_from 0 (x24 :: n) after s = s.
Proof.
  intros H. rewrite <- (app_nil_r s) at 1.
  rewrite replace_pass by exact H. simpl. apply app_nil_r.
Qed.

Lemma is_prefix_app (b rest : list byte) : is_prefix b (b ++ rest) = true.
Proof.
  induction b as [|c b IH]; simpl; [reflexivity|].
  rewrite IH, andb_true_r. apply byte_eqb_eq. reflexivity.
Qed.

Lemma replace_skip (before after l rest : list byte) :
  replace_from (length l) before after (l ++ rest)
  = replace_from 0 before after rest.
Proof.
  induction l as [|c l IH]; [reflexivity|]. simpl. exact IH.
Qed.

(** At an occurrence the marker is replaced and the scan goes on behind
    it. *)
Lemma replace_match (c : byte) (n after rest : list byte) :
  replace_from 0 (c :: n) after ((c :: n) ++ rest)
  = after ++ replace_from 0 (c :: n) after rest.
Proof.
  cbn [app replace_from].
  change (c :: n ++ rest) with ((c :: n) ++ rest).
  rewrite is_prefix_app. f_equal.
  cbn [length]. rewrite Nat.sub_succ, Nat.sub_0_r.
  apply replace_skip.
Qed.

(** A marker with another number is passed over. *)
Lemma replace_other_marker (d d' : byte) (n n' after rest : list byte) :
  d <> d' ->
  spec_placeholder_count (d' :: n' ++ rest) = 0%nat ->
  replace_from 0 (x24 :: d :: n) after (x24 :: d' :: n' ++ rest)
  = x24 :: d' :: n' ++ rest.
Proof.
  intros Hd H0.
  assert (E : Byte.eqb d d' = false).
  { destruct (Byte.eqb d d') eqn:E; [|reflexivity].
    apply byte_eqb_eq in E. contradiction. }
  cbn [replace_from is_prefix]. rewrite E. simpl. f_equal.
  apply (replace_no_marker (d :: n) after (d' :: n' ++ rest) H0).
Qed.

Lemma substitute_no_marker (cmd : QByteArray) :
  spec_placeholder_count cmd = 0%nat ->
  forall ps n, Sql.substitute cmd n ps = cmd.
Proof.
  intros H. induction ps as [|p ps IH]; intros n; [reflexivity|].
  cbn [Sql.substitute]. unfold QByteArray_replace, Sql.paramPrefix.
  rewrite replace_no_marker by exact H.
  destruct (SqlParameterList.format p =? 0); apply IH.
Qed.

Lemma substitute_binary (cmd : QByteArray) (ps : list SqlParameterList.ParamFormat) :
  Forall (fun p => SqlParameterList.format p <> 0) ps ->
  forall n, Sql.substitute cmd n ps = cmd.
Proof.
  induction 1 as [|p ps Hp _ IH]; intros n; [reflexivity|].
  cbn [Sql.substitute].
  destruct (Z.eqb_spec (SqlParameterList.format p) 0); [contradiction|].
  apply IH.
Qed.

Lemma zip_params_formats (ps : list QByteArray) : forall fs : list Z,
  Forall (fun f => f <> 0) fs ->
  Forall (fun p => SqlParameterList.format p <> 0)
    (SqlParameterList.zip_params ps fs).
Proof.
  induction ps as [|p ps IH]; intros [|f fs] H; simpl; try constructor.
  - inversion H; assumption.
  - apply IH. inversion H; assumption.
Qed.

(** X5. [debug ()] logs the template itself, and nothing else, when the
    two vectors have the same length and either the template holds no
    ['$'] or no parameter has the text format: binary parameters are
    never substituted.  With vectors of different lengths, whatever the
    template and the format tags, it first warns "invalid data" and then
    logs the template with nothing substituted. *)
Theorem debug_leaves_template :
  forall s : Sql.t,
    (well_formed (Sql.params s) ->
     spec_placeholder_count (Sql.command s) = 0%nat
     \/ Forall (fun f => f <> 0) (SqlParameterList.formats (Sql.params s)) ->
     Sql.debug s = (tt, [EvDebug (Sql.command s)]))
    /\ (~ well_formed (Sql.params s) ->
        Sql.debug s
        = (tt, [EvWarning "invalid data"; EvDebug (Sql.command s)])).
Proof.
  intros s. unfold Sql.debug, SqlParameterList.paramWithFormat, well_formed,
    SqlParameterList.params, SqlParameterList.formats, Sql.params, Sql.command.
  destruct (Nat.eqb_spec (length (SqlParameterList.params_ (Sql.params_ s)))
              (length (SqlParameterList.formats_ (Sql.params_ s)))) as [E|E].
  - split; [|intros H; contradiction].
    intros _ H. unfold ret. rewrite bind_nil. unfold qDebug, emit. do 3 f_equal.
    destruct H as [H|H].
    + apply substitute_no_marker. exact H.
    + apply substitute_binary. apply zip_params_formats. exact H.
  - split; [intros H; contradiction|]. intros _. reflexivity.
Qed.

Lemma debug_leaves_template_witness :
  Sql.debug (Sql.make (bytes "SELECT 1")) = (tt, [EvDebug (bytes "SELECT 1")])
  /\ Sql.debug
       (Sql.mk (bytes "SELECT $1") (SqlParameterList.mk [bytes "p"] []))
     = (tt, [EvWarning "invalid data"; EvDebug (bytes "SELECT $1")]).
Proof.
  split.
  - apply (proj1 (debug_leaves_template (Sql.make (bytes "SELECT 1"))));
      [reflexivity | left; reflexivity].
  - apply (proj2 (debug_leaves_template
                    (Sql.mk (bytes "SELECT $1")
                       (SqlParameterList.mk [bytes "p"] [])))).
    intros H. discriminate H.
Defined.

(** X6. Positional substitution: for a template with the placeholders
    [$1] and [$2], in this order between texts that hold no ['$'], and a
    text parameter [p1] that holds no ['$'], [debug ()] logs the template
    with [p1] in place of [$1] and, in place of [$2], the second
    parameter when it is text; a binary second parameter leaves [$2]. *)
Theorem debug_substitutes_positionally :
  forall (pre mid post p1 p2 : QByteArray) (f2 : Z),
    spec_placeholder_count pre = 0%nat ->
    spec_placeholder_count mid = 0%nat ->
    spec_placeholder_count post = 0%nat ->
    spec_placeholder_count p1 = 0%nat ->
    Sql.debug
      (Sql.mk (pre ++ bytes "$1" ++ mid ++ bytes "$2" ++ post)
         (SqlParameterList.mk [p1; p2] [0; f2]))
    = (tt, [EvDebug (pre ++ p1 ++ mid
                     ++ (if f2 =? 0 then p2 else bytes "$2") ++ post)]).
Proof.
  intros pre mid post p1 p2 f2 Hpre Hmid Hpost Hp1.
  unfold Sql.debug, SqlParameterList.paramWithFormat. simpl.
  unfold bind, ret, qDebug, emit. simpl. do 3 f_equal.
  unfold QByteArray_replace, Sql.paramPrefix, QByteArray_number.
  change (bytes (NilZero.string_of_int (Z.to_int 1))) with [x31].
  change (bytes (NilZero.string_of_int (Z.to_int 2))) with [x32].
  change (bytes "$2") with [x24; x32].
  assert (H1 : replace_from 0 [x24; x31] p1
                 (pre ++ [x24; x31] ++ mid ++ [x24; x32] ++ post)
               = pre ++ p1 ++ mid ++ [x24; x32] ++ post).
  { rewrite replace_pass by exact Hpre.
    rewrite (replace_match x24 [x31]).
    rewrite replace_pass by exact Hmid.
    do 3 f_equal.
    apply (replace_other_marker x31 x32 [] [] p1 post); [discriminate|].
    simpl. exact Hpost. }
  cbn [app] in H1. rewrite H1.
  destruct (f2 =? 0); [|reflexivity].
  replace (pre ++ p1 ++ mid ++ x24 :: x32 :: post)
    with ((pre ++ p1 ++ mid) ++ [x24; x32] ++ post)
    by (now rewrite <- !app_assoc).
  rewrite replace_pass
    by (rewrite !spec_placeholder_count_app, Hpre, Hp1, Hmid; reflexivity).
  rewrite (replace_match x24 [x32]).
  rewrite replace_no_marker by exact Hpost.
  now rewrite <- !app_assoc.
Qed.

Lemma debug_substitutes_positionally_witness :
  Sql.debug
    (Sql.mk (bytes "INSERT INTO t VALUES (" ++ bytes "$1" ++ bytes ", "
             ++ bytes "$2" ++ bytes ")")
       (SqlParameterList.mk [bytes "name"; [x01; x02]] [0; 1]))
  = (tt, [EvDebug (bytes "INSERT INTO t VALUES (" ++ bytes "name" ++ bytes ", "
                   ++ bytes "$2" ++ bytes ")")]).
Proof.
  apply (debug_substitutes_positionally (bytes "INSERT INTO t VALUES (")
           (bytes ", ") (bytes ")") (bytes "name") [x01; x02] 1);
    reflexivity.
Defined.

(* ================================================================= *)
(** * Further properties of the decoder *)

Lemma spec_be_value_range (l : list byte) :
  0 <= spec_be_value l < 256 ^ Z.of_nat (length l).
Proof.
  induction l as [|b l IH].
  - simpl. lia.
  - cbn [spec_be_value length]. rewrite Nat2Z.inj_succ, Z.pow_succ_r by lia.
    pose proof (Z_of_byte_range b).
    assert (0 < 256 ^ Z.of_nat (length l)) by (apply Z.pow_pos_nonneg; lia).
    nia.
Qed.

Lemma bit_width_pos (T : IntType) : (0 < sizeof T)%nat -> 0 < bit_width T.
Proof. unfold bit_width. lia. Qed.

Lemma pow2_split (w : Z) : 0 < w -> 2 ^ w = 2 * 2 ^ (w - 1).
Proof. intros H. rewrite <- Z.pow_succ_r by lia. f_equal. lia. Qed.

Lemma reinterpret_in_range (T : IntType) (u : Z) :
  (0 < sizeof T)%nat -> 0 <= u < 2 ^ bit_width T ->
  spec_in_range T (reinterpret T u).
Proof.
  intros Hs Hu. pose proof (pow2_split _ (bit_width_pos T Hs)) as Hp.
  unfold spec_in_range, reinterpret.
  destruct (is_signed T); simpl; [|exact Hu].
  destruct (Z.leb_spec (2 ^ (bit_width T - 1)) u); lia.
Qed.

Lemma zero_in_range (T : IntType) : (0 < sizeof T)%nat -> spec_in_range T 0.
Proof.
  intros Hs. pose proof (pow2_split _ (bit_width_pos T Hs)) as Hp.
  assert (0 < 2 ^ (bit_width T - 1))
    by (apply Z.pow_pos_nonneg; pose proof (bit_width_pos T Hs); lia).
  unfold spec_in_range. destruct (is_signed T); lia.
Qed.

(** X7. Whatever the cell holds, [value<T>] at an integer type gives a
    value of [T]: an [n]-byte cell cannot decode outside the range of an
    [n]-byte type, and every other cell gives 0. *)
Theorem value_int_in_range :
  forall (T : IntType) (res : option PGresult) (row column : Z),
    (0 < sizeof T)%nat ->
    spec_in_range T (value_int T res row column).
Proof.
  intros T res row column Hs. rewrite value_int_cell.
  destruct (cell_at res (int_of_uint32 row) (int_of_uint32 column)) as [c|];
    [|apply zero_in_range; exact Hs].
  destruct (cell_isnull c); simpl; [apply zero_in_range; exact Hs|].
  destruct (Nat.eqb_spec (length (cell_bytes c)) (sizeof T)) as [E|E];
    [|apply zero_in_range; exact Hs].
  apply reinterpret_in_range; [exact Hs|].
  pose proof (spec_be_value_range (cell_bytes c)) as H.
  rewrite E, pow_256 in H. exact H.
Qed.

Lemma value_int_in_range_witness :
  spec_in_range int64_t (value_int int64_t (Some res_1x2) 0 1).
Proof.
  apply value_int_in_range. simpl. lia.
Defined.

Lemma byte_of_Z_of_byte (b : byte) : byte_of_Z (Z_of_byte b) = b.
Proof.
  unfold byte_of_Z. rewrite Z.mod_small by apply Z_of_byte_range.
  unfold Z_of_byte. rewrite N2Z.id, Byte.of_to_N. reflexivity.
Qed.

Lemma byte_of_Z_add_mul (m x : Z) : byte_of_Z (m * 256 + x) = byte_of_Z x.
Proof.
  unfold byte_of_Z. now rewrite Z.add_comm, Z.mod_add by lia.
Qed.

Lemma spec_be_encode_high (k : nat) : forall m v : Z,
  spec_be_encode k (m * 256 ^ Z.of_nat k + v) = spec_be_encode k v.
Proof.
  induction k as [|j IH]; intros m v; [reflexivity|].
  cbn [spec_be_encode].
  assert (Hj : 0 < 256 ^ Z.of_nat j) by (apply Z.pow_pos_nonneg; lia).
  rewrite Nat2Z.inj_succ, Z.pow_succ_r by lia.
  replace (m * (256 * 256 ^ Z.of_nat j) + v)
    with (m * 256 * 256 ^ Z.of_nat j + v) by ring.
  rewrite Z.div_add_l by lia.
  rewrite byte_of_Z_add_mul, IH. reflexivity.
Qed.

(** Encoding the big-endian value of [n] bytes gives the bytes back. *)
Lemma spec_be_encode_value (l : list byte) :
  spec_be_encode (length l) (spec_be_value l) = l.
Proof.
  induction l as [|b l IH]; [reflexivity|].
  cbn [spec_be_encode spec_be_value length].
  assert (Hk : 0 < 256 ^ Z.of_nat (length l)) by (apply Z.pow_pos_nonneg; lia).
  pose proof (spec_be_value_range l) as Hv.
  rewrite Z.div_add_l by lia.
  rewrite Z.div_small by exact Hv. rewrite Z.add_0_r, byte_of_Z_of_byte.
  rewrite spec_be_encode_high, IH. reflexivity.
Qed.

Lemma reinterpret_mod (T : IntType) (u : Z) :
  0 <= u < 2 ^ bit_width T ->
  reinterpret T u mod 2 ^ bit_width T = u.
Proof.
  intros Hu. unfold reinterpret.
  destruct (is_signed T && (2 ^ (bit_width T - 1) <=? u)).
  - replace (u - 2 ^ bit_width T) with (u + (-1) * 2 ^ bit_width T) by ring.
    rewrite Z.mod_add by lia. apply Z.mod_small. exact Hu.
  - apply Z.mod_small. exact Hu.
Qed.

(** X8. Decoding loses nothing: for a cell that is not null and has
    [sizeof (T)] bytes, the big-endian encoding of the decoded value is
    the cell's bytes, so two such cells decode to the same value only
    when they hold the same bytes. *)
Theorem value_int_then_encode :
  forall (T : IntType) (res : option PGresult) (row column : Z) (c : Cell),
    cell_at res (int_of_uint32 row) (int_of_uint32 column) = Some c ->
    cell_isnull c = false ->
    length (cell_bytes c) = sizeof T ->
    spec_encode T (value_int T res row column) = cell_bytes c.
Proof.
  intros T res row column c Hc Hnull Hlen.
  rewrite value_int_cell, Hc, Hnull, Hlen, Nat.eqb_refl. simpl.
  unfold spec_encode.
  pose proof (spec_be_value_range (cell_bytes c)) as Hr.
  rewrite Hlen, pow_256 in Hr. fold (bit_width T) in Hr.
  rewrite reinterpret_mod by exact Hr.
  rewrite <- Hlen. apply spec_be_encode_value.
Qed.

Lemma value_int_then_encode_witness :
  spec_encode int64_t (value_int int64_t (Some res_1x2) 0 1)
  = [xff; xff; xff; xff; xff; xff; xff; xff].
Proof.
  apply (value_int_then_encode int64_t (Some res_1x2) 0 1
           (mkCell false [xff; xff; xff; xff; xff; xff; xff; xff]));
    reflexivity.
Defined.

(** X9. [value<QDateTime>] never gives the null date-time: a cell that
    is absent, null or not 8 bytes long decodes to the epoch
    2000-01-01T00:00:00 itself, which is not [QDateTime ()]. *)
Theorem value_QDateTime_of_absent_cell :
  forall (res : option PGresult) (row column : Z),
    value_QDateTime res row column <> default_value TQDateTime
    /\ match cell_at res (int_of_uint32 row) (int_of_uint32 column) with
       | Some c =>
           if negb (cell_isnull c) && Nat.eqb (length (cell_bytes c)) 8
           then True
           else value_QDateTime res row column = epoch2000
       | None => value_QDateTime res row column = epoch2000
       end.
Proof.
  intros res row column. unfold value_QDateTime. split.
  - unfold epoch2000, addMSecs. change (default_value TQDateTime) with (@None Z).
    discriminate.
  - rewrite value_int_cell.
    destruct (cell_at res (int_of_uint32 row) (int_of_uint32 column)) as [c|];
      [|reflexivity].
    change (sizeof int64_t) with 8%nat.
    destruct (negb (cell_isnull c) && Nat.eqb (length (cell_bytes c)) 8);
      [exact I | reflexivity].
Qed.

Section TextAndBlob.
Context {qt : QtRuntime}.

Lemma value_span_cell (res : option PGresult) (row column : Z) (c : Cell) :
  cell_at res (int_of_uint32 row) (int_of_uint32 column) = Some c ->
  cell_isnull c = false ->
  value_span res row column = cell_bytes c.
Proof.
  intros Hc Hn. unfold value_span, PQgetvalue, PQgetlength.
  rewrite Hc, Hn. rewrite Nat2Z.id. apply firstn_all.
Qed.

(** X10. The blob decoder gives the bytes of the cell as they are, NUL
    bytes included, and the text decoder gives their conversion from the
    local 8-bit encoding; a cell that is null or out of range gives the
    empty blob and the empty text. *)
Theorem value_blob_and_text :
  forall (res : option PGresult) (row column : Z),
    match cell_at res (int_of_uint32 row) (int_of_uint32 column) with
    | Some c =>
        if cell_isnull c
        then value_QByteArray res row column = []
             /\ value_QString res row column = EmptyString
        else value_QByteArray res row column = cell_bytes c
             /\ value_QString res row column
                = QString_fromLocal8Bit (cell_bytes c)
    | None =>
        value_QByteArray res row column = []
        /\ value_QString res row column = EmptyString
    end.
Proof.
  intros res row column.
  destruct (cell_at res (int_of_uint32 row) (int_of_uint32 column)) as [c|] eqn:Hc.
  - destruct (cell_isnull c) eqn:Hn.
    + unfold value_QByteArray, value_QString, PQgetisnull.
      rewrite Hc, Hn. split; reflexivity.
    + unfold value_QByteArray, value_QString, PQgetisnull.
      rewrite Hc, Hn. simpl.
      rewrite (value_span_cell res row column c Hc Hn). split; reflexivity.
  - unfold value_QByteArray, value_QString, PQgetisnull.
    rewrite Hc. split; reflexivity.
Qed.

End TextAndBlob.

(** X11. The boolean decoder does not look at the null flag or at the
    length: a cell in range decodes to true exactly when it is not null
    and its first byte is not 0, so a null cell and a cell without bytes
    both read as false. *)
Theorem value_bool_first_byte :
  forall (res : option PGresult) (row column : Z) (c : Cell),
    cell_at res (int_of_uint32 row) (int_of_uint32 column) = Some c ->
    value_bool res row column
    = negb (cell_isnull c)
      && match cell_bytes c with
         | b :: _ => negb (Byte.eqb b x00)
         | [] => false
         end.
Proof.
  intros res row column c Hc. unfold value_bool, PQgetvalue. rewrite Hc.
  destruct (cell_isnull c); simpl; [reflexivity|].
  destruct (cell_bytes c); reflexivity.
Qed.

Lemma value_bool_first_byte_witness :
  value_bool (Some res_1x2) 0 1 = true.
Proof.
  apply (value_bool_first_byte (Some res_1x2) 0 1
           (mkCell false [xff; xff; xff; xff; xff; xff; xff; xff])).
  reflexivity.
Defined.

(* ================================================================= *)
(** * Further properties of the cursor *)

Lemma int_of_uint32_small (z : Z) : 0 <= z < 2 ^ 31 -> int_of_uint32 z = z.
Proof.
  intros H. unfold int_of_uint32.
  destruct (Z.ltb_spec z (2 ^ 31)); [reflexivity | lia].
Qed.

Lemma cell_at_in_range (res : PGresult) (row column : Z) (c : Cell) :
  cell_at (Some res) row column = Some c ->
  0 <= row < PQntuples res /\ 0 <= column < PQnfields res.
Proof.
  unfold cell_at.
  destruct (Z.leb_spec 0 row), (Z.ltb_spec row (PQntuples res)),
    (Z.leb_spec 0 column), (Z.ltb_spec column (PQnfields res));
    simpl; try discriminate.
  intros _. lia.
Qed.

Lemma cell_at_out_of_range (res : option PGresult) (row column : Z) :
  match res with
  | Some r => row < 0 \/ PQntuples r <= row \/ column < 0 \/ PQnfields r <= column
  | None => True
  end ->
  cell_at res row column = None.
Proof.
  destruct res as [r|]; [|reflexivity]. unfold cell_at. intros H.
  destruct (Z.leb_spec 0 row), (Z.ltb_spec row (PQntuples r)),
    (Z.leb_spec 0 column), (Z.ltb_spec column (PQnfields r));
    simpl; try reflexivity.
  lia.
Qed.

Lemma make_of_handle (res : PGresult) :
  0 <= PQntuples res <= INT_MAX -> 0 <= PQnfields res <= INT_MAX ->
  PgResult.make (Some res)
  = (PgResult.mk (Some res) (PQntuples res) (PQnfields res), []).
Proof.
  unfold INT_MAX. intros Hr Hc. unfold PgResult.make.
  destruct (Z.ltb_spec (PQntuples res) 0); [lia|].
  destruct (Z.ltb_spec (PQnfields res) 0); [lia|].
  simpl. rewrite !to_uint32_small by lia. reflexivity.
Qed.

(** X12. Checked access composes the two guards: [at (i)] followed by
    [value<T> (j)], and [value (i, j)] followed by [to<T> ()], call the
    decoder only for [i] below [rowCount ()] and [j] below
    [columnCount ()], and give [T ()] otherwise. *)
Theorem checked_access_is_guarded :
  forall (qt : QtRuntime) (T : Target) (r : PgResult.t) (i j : Z),
    PgRow.value T (PgResultRows.at_ r i) j
    = (if (i <? PgResult.rowCount r) && (j <? PgResult.columnCount r)
       then value T (PgResult.get r) i j
       else default_value T)
    /\ PgRowColumn.to T (PgResult_value r i j)
       = PgRow.value T (PgResultRows.at_ r i) j.
Proof.
  intros qt T r i j. split; [|reflexivity].
  unfold PgRow.value, PgRowColumn.to, PgResultRows.at_, PgResult.size.
  destruct (i <? PgResult.rowCount r); simpl; reflexivity.
Qed.

(** X13. A result built from a handle whose counts are not negative is
    valid and reports libpq's counts without a warning, and reading a
    cell through it ([at (i)], then [value<T> (j)]) gives the value whose
    big-endian encoding the cell holds. *)
Theorem result_reads_cells :
  forall (qt : QtRuntime) (T : IntType) (res : PGresult) (i j v : Z),
    0 <= PQntuples res <= INT_MAX ->
    0 <= PQnfields res <= INT_MAX ->
    let r := result_of (PgResult.make (Some res)) in
    trace_of (PgResult.make (Some res)) = []
    /\ PgResult.valid r = true
    /\ PgResult.rowCount r = PQntuples res
    /\ PgResult.columnCount r = PQnfields res
    /\ (spec_in_range T v ->
        cell_at (Some res) i j = Some (mkCell false (spec_encode T v)) ->
        PgRow.value (TInt T) (PgResultRows.at_ r i) j = v).
Proof.
  intros qt T res i j v Hr Hc r. subst r.
  rewrite (make_of_handle res Hr Hc). cbn [result_of trace_of fst snd].
  repeat split. intros Hv Hcell.
  destruct (cell_at_in_range res i j _ Hcell) as [Hi Hj].
  unfold PgRow.value, PgRowColumn.to, PgResultRows.at_, PgResult.size. simpl.
  destruct (Z.ltb_spec i (PQntuples res)); [|lia]. simpl.
  destruct (Z.ltb_spec j (PQnfields res)); [|lia].
  unfold INT_MAX in *.
  apply value_int_encode; [exact Hv|].
  rewrite !int_of_uint32_small by lia. exact Hcell.
Qed.

Lemma result_reads_cells_witness :
  PgRow.value (qt := qt_latin1) (TInt int32_t)
    (PgResultRows.at_ (result_of (PgResult.make (Some res_1x2))) 0) 0 = 7.
Proof.
  assert (Hr : 0 <= PQntuples res_1x2 <= INT_MAX) by (vm_compute; split; congruence).
  assert (Hc : 0 <= PQnfields res_1x2 <= INT_MAX) by (vm_compute; split; congruence).
  assert (Hv : spec_in_range int32_t 7) by (vm_compute; split; congruence).
  destruct (result_reads_cells qt_latin1 int32_t res_1x2 0 0 7 Hr Hc)
    as (_ & _ & _ & _ & H).
  exact (H Hv eq_refl).
Defined.

(** X14. The constructor from a handle: the result is valid exactly when
    the handle is not null and neither count is negative, and a warning
    is logged exactly for a handle with a negative count; a result that
    is not valid has no rows and no columns, so [at] gives the unbound
    row for every index. *)
Theorem make_valid_iff :
  forall handle : option PGresult,
    let r := result_of (PgResult.make handle) in
    PgResult.valid r
    = match handle with
      | Some res => (0 <=? PQntuples res) && (0 <=? PQnfields res)
      | None => false
      end
    /\ trace_of (PgResult.make handle)
       = match handle with
         | Some res =>
             if (0 <=? PQntuples res) && (0 <=? PQnfields res)
             then []
             else [EvWarning "invalid SQL result: tuples count or fields count < 0"]
         | None => []
         end
    /\ (if PgResult.valid r then True
        else r = PgResult.empty
             /\ forall i : Z, 0 <= i -> PgResultRows.at_ r i = PgRow.empty).
Proof.
  intros [res|]; simpl.
  - unfold PgResult.make.
    destruct (Z.ltb_spec (PQntuples res) 0), (Z.ltb_spec (PQnfields res) 0),
      (Z.leb_spec 0 (PQntuples res)), (Z.leb_spec 0 (PQnfields res));
      try lia; simpl; repeat split;
      intros i Hi; unfold PgResultRows.at_, PgResult.size; simpl;
      destruct (Z.ltb_spec i 0); (lia || reflexivity).
  - repeat split. intros i Hi. unfold PgResultRows.at_, PgResult.size. simpl.
    destruct (Z.ltb_spec i 0); (lia || reflexivity).
Qed.

(** X15. [front ()] and [back ()] are safe on an empty result: both give
    the unbound row ([size () - 1] wraps to the largest index, which [at]
    rejects); otherwise they are the rows 0 and [rowCount () - 1]. *)
Theorem front_and_back :
  forall r : PgResult.t,
    0 <= PgResult.rowCount r < 2 ^ 32 ->
    if PgResult.rowCount r =? 0
    then PgResultRows.front r = PgRow.empty
         /\ PgResultRows.back r = PgRow.empty
    else PgResultRows.front r = PgRow.mk (Some r) 0
         /\ PgResultRows.back r = PgRow.mk (Some r) (PgResult.rowCount r - 1).
Proof.
  intros r Hr.
  unfold PgResultRows.front, PgResultRows.back, PgResultRows.at_, PgResult.size.
  destruct (Z.eqb_spec (PgResult.rowCount r) 0) as [E|E].
  - rewrite E. split; reflexivity.
  - rewrite (to_uint32_small (PgResult.rowCount r - 1)) by lia.
    destruct (Z.ltb_spec 0 (PgResult.rowCount r)); [|lia].
    destruct (Z.ltb_spec (PgResult.rowCount r - 1) (PgResult.rowCount r)); [|lia].
    split; reflexivity.
Qed.

Lemma front_and_back_witness :
  PgResultRows.front PgResult.empty = PgRow.empty
  /\ PgResultRows.back PgResult.empty = PgRow.empty.
Proof.
  apply (front_and_back PgResult.empty). simpl. lia.
Defined.

Lemma advance_row (res : option PgResult.t) (k : nat) :
  Z.of_nat k < 2 ^ 32 ->
  advance PgRow.next k (PgRow.mk res 0) = PgRow.mk res (Z.of_nat k).
Proof.
  induction k as [|k IH]; intros Hk; [reflexivity|].
  change (advance PgRow.next (S k) (PgRow.mk res 0))
    with (PgRow.next (advance PgRow.next k (PgRow.mk res 0))).
  rewrite IH by lia.
  unfold PgRow.next, uint32_incr. simpl.
  rewrite to_uint32_small by lia. f_equal. lia.
Qed.

(** X16. A loop over the rows of a result, from [begin ()] to [end ()],
    visits the row indices 0, 1, ... up to [rowCount () - 1] in order
    and stops: the cursor equals [end ()] after [rowCount ()] increments
    and not before. *)
Theorem rows_are_visited_in_order :
  forall (r : PgResult.t) (n fuel : nat),
    PgResult.rowCount r = Z.of_nat n -> Z.of_nat n < 2 ^ 32 -> (n < fuel)%nat ->
    visit PgRow.next PgRow.eqb PgRow.row_ fuel
      (PgResultRows.begin r) (PgResultRows.end_ r)
    = map Z.of_nat (seq 0 n)
    /\ (forall k : nat,
          (k <= n)%nat ->
          PgRow.eqb (advance PgRow.next k (PgResultRows.begin r))
            (PgResultRows.end_ r)
          = Nat.eqb k n).
Proof.
  intros r n fuel Hrows Hn Hfuel. split.
  - unfold PgResultRows.begin, PgResultRows.end_, PgResult.size.
    rewrite Hrows.
    apply (row_cursor_visits_from (Some r) n Hn n 0%nat fuel); lia.
  - intros k Hk. unfold PgResultRows.begin, PgResultRows.end_, PgResult.size.
    rewrite advance_row by lia. unfold PgRow.eqb. simpl. rewrite Hrows.
    destruct (Nat.eqb_spec k n) as [E|E].
    + subst k. apply Z.eqb_refl.
    + apply Z.eqb_neq. lia.
Qed.

Lemma rows_are_visited_in_order_witness :
  visit PgRow.next PgRow.eqb PgRow.row_ 3
    (PgResultRows.begin result_1x2) (PgResultRows.end_ result_1x2)
  = [0].
Proof.
  apply (proj1 (rows_are_visited_in_order result_1x2 1 3 eq_refl eq_refl
                  (le_n_S _ _ (le_S _ _ (le_n 1))))).
Defined.

(** X17. Past the last row the unchecked [operator []] is still
    harmless for integers, blobs and text: libpq reports a cell in a row
    that does not exist as null, so [to<T> ()] gives 0, the empty blob
    and the empty text. *)
Theorem subscript_past_rows_reads_default :
  forall (qt : QtRuntime) (T : IntType) (res : PGresult) (i j : Z),
    0 <= PQntuples res <= INT_MAX ->
    0 <= PQnfields res <= INT_MAX ->
    PQntuples res <= i < 2 ^ 32 ->
    let c :=
      PgRow.at_ (PgResultRows.subscript (result_of (PgResult.make (Some res))) i) j in
    PgRowColumn.to (TInt T) c = 0
    /\ PgRowColumn.to TQByteArray c = []
    /\ PgRowColumn.to TQString c = EmptyString.
Proof.
  intros qt T res i j Hr Hc Hi c. subst c.
  rewrite (make_of_handle res Hr Hc). simpl.
  assert (Hcell : cell_at (Some res) (int_of_uint32 i) (int_of_uint32 j) = None).
  { apply cell_at_out_of_range. unfold int_of_uint32, INT_MAX in *.
    destruct (Z.ltb_spec i (2 ^ 31)); lia. }
  unfold PgRowColumn.to, PgRow.at_, PgResultRows.subscript. simpl.
  destruct (j <? PQnfields res); [|repeat split].
  split; [|split].
  - simpl. rewrite value_int_cell, Hcell. reflexivity.
  - simpl. unfold value_QByteArray, PQgetisnull. rewrite Hcell. reflexivity.
  - simpl. unfold value_QString, PQgetisnull. rewrite Hcell. reflexivity.
Qed.

Lemma subscript_past_rows_reads_default_witness :
  PgRowColumn.to (qt := qt_latin1) (TInt int32_t)
    (PgRow.at_
       (PgResultRows.subscript (result_of (PgResult.make (Some res_1x2))) 5) 0)
  = 0.
Proof.
  assert (Hr : 0 <= PQntuples res_1x2 <= INT_MAX) by (vm_compute; split; congruence).
  assert (Hc : 0 <= PQnfields res_1x2 <= INT_MAX) by (vm_compute; split; congruence).
  assert (Hi : PQntuples res_1x2 <= 5 < 2 ^ 32) by (vm_compute; split; congruence).
  exact (proj1 (subscript_past_rows_reads_default qt_latin1 int32_t res_1x2 5 0
                  Hr Hc Hi)).
Defined.

(* ================================================================= *)
(** * Further properties of the executor *)

Lemma int_of_size_small (n : nat) :
  Z.of_nat n < INT_MAX -> int_of_size n = Z.of_nat n.
Proof.
  unfold INT_MAX, int_of_size. intros H.
  rewrite to_uint32_small by lia. apply int_of_uint32_small. lia.
Qed.

(** X18. What [exec] submits for a valid command: after the debug line,
    one call of [PQexecParams] with the template (read as a C string),
    [size ()] as the parameter count and binary results; with no
    parameters the three arrays are null, and otherwise they are the
    payloads, their lengths and the format tags, each with exactly
    [size ()] entries.  Nothing else is submitted. *)
Theorem exec_submits_consistent_arrays :
  forall (pq : Libpq) (conn : option PGconn) (sql_ : Sql.t)
         (error : option QString),
    Sql.valid sql_ = true ->
    let params := Sql.params sql_ in
    let n := SqlParameterList.size params in
    let lengths :=
      map (fun data => int_of_size (length data)) (SqlParameterList.params params) in
    exists rest : list Event,
      trace_of (exec conn sql_ error)
      = EvDebug (rendered sql_)
        :: EvExecParams (until_nul (Sql.command sql_)) (Z.of_nat n)
             (if (0 <? n)%nat then Some (SqlParameterList.params params) else None)
             (if (0 <? n)%nat then Some lengths else None)
             (if (0 <? n)%nat then Some (SqlParameterList.formats params) else None)
             1
        :: rest
      /\ spec_no_round_trip rest = true
      /\ length (SqlParameterList.params params) = n
      /\ length lengths = n
      /\ length (SqlParameterList.formats params) = n.
Proof.
  intros pq conn sql_ error H params n lengths. subst params n lengths.
  pose proof (proj1 (valid_unfold sql_) H) as (_ & H2 & H3 & H4 & _).
  unfold exec. rewrite H, (debug_valid sql_ H). simpl negb. cbv iota.
  rewrite (int_of_size_small _ H2).
  unfold call_PQexecParams, errorReport, qWarning, emit, ret, bind, trace_of.
  rewrite length_map.
  destruct (PQexecParams _ _ _ _ _ _ _) as [r|].
  - destruct (isFailStatus (PQresultStatus r)); simpl;
      eexists; (split; [reflexivity|]); repeat split; auto.
  - simpl. eexists; (split; [reflexivity|]); repeat split; auto.
Qed.

Lemma exec_submits_consistent_arrays_witness :
  exists rest : list Event,
    trace_of (exec (pq := pq_const) (Some tt) sql_insert_bound None)
    = EvDebug (rendered sql_insert_bound)
      :: EvExecParams (bytes "INSERT INTO t VALUES ($1, $2)") 2
           (Some [bytes "name"; [x01; x02]]) (Some [4; 2]) (Some [0; 1]) 1
      :: rest.
Proof.
  destruct (exec_submits_consistent_arrays pq_const (Some tt) sql_insert_bound
              None eq_refl) as (rest & Ht & _).
  exists rest. exact Ht.
Defined.

Lemma exec_outcome_cases {pq : Libpq} (conn : option PGconn) (sql_ : Sql.t)
    (error : option QString) :
    match fst (result_of (exec conn sql_ error)) with
    | Some r =>
        Sql.valid sql_ = true
        /\ (PQresultStatus r = PGRES_COMMAND_OK
            \/ PQresultStatus r = PGRES_TUPLES_OK)
        /\ snd (result_of (exec conn sql_ error)) = error
        /\ existsb is_warning (trace_of (exec conn sql_ error)) = false
    | None =>
        exists message : QString,
          QString_isEmpty message = false
          /\ snd (result_of (exec conn sql_ error))
             = option_map (fun _ => message) error
          /\ last (trace_of (exec conn sql_ error)) (EvDebug [])
             = EvWarning message
    end.
Proof.
  destruct (Sql.valid sql_) eqn:H.
  - unfold exec. rewrite H, (debug_valid sql_ H). simpl negb. cbv iota.
    unfold call_PQexecParams, errorReport, qWarning, emit, ret, bind,
      trace_of, result_of.
    destruct (PQexecParams _ _ _ _ _ _ _) as [r|].
    + destruct (PQresultStatus r) eqn:Es; simpl;
        try (eexists; split; [|split; [destruct error; reflexivity | reflexivity]];
             reflexivity);
        repeat split; auto.
    + simpl. eexists. split; [|split; [destruct error; reflexivity | reflexivity]].
      reflexivity.
  - rewrite (exec_invalid conn sql_ error H). simpl.
    eexists. split; [|split; [destruct error; reflexivity | reflexivity]].
    reflexivity.
Qed.

(** X19. The two outcomes of [exec].  A handle is returned only for a
    valid command and a result whose status is "command ok" or "tuples
    ok"; then nothing is written through the error pointer and no warning
    is logged.  Otherwise the null handle is returned, and one message,
    which is not empty, is both the last line of the log, as a warning,
    and what the error pointer (when given) then points to. *)
Theorem exec_outcomes :
  forall (pq : Libpq) (conn : option PGconn) (sql_ : Sql.t)
         (error : option QString),
    match fst (result_of (exec conn sql_ error)) with
    | Some r =>
        Sql.valid sql_ = true
        /\ (PQresultStatus r = PGRES_COMMAND_OK
            \/ PQresultStatus r = PGRES_TUPLES_OK)
        /\ snd (result_of (exec conn sql_ error)) = error
        /\ existsb is_warning (trace_of (exec conn sql_ error)) = false
    | None =>
        exists message : QString,
          QString_isEmpty message = false
          /\ snd (result_of (exec conn sql_ error))
             = option_map (fun _ => message) error
          /\ last (trace_of (exec conn sql_ error)) (EvDebug [])
             = EvWarning message
    end.
Proof.
  intros pq conn sql_ error. apply exec_outcome_cases.
Qed.

(* ================================================================= *)
(** * Properties of the connection *)

Section ConnectionFacts.
Context {pq : Libpq} {pqc : LibpqConnection pq}.

Lemma validate_invalid (c : PgConnection.t) :
  PgConnection.valid c = false ->
  PgConnection.validate c = ((false, c), []).
Proof. intros H. unfold PgConnection.validate. rewrite H. reflexivity. Qed.

Lemma validate_ok (c : PgConnection.t) (conn : PGconn) :
  PgConnection.conn_ c = Some conn ->
  PQstatus conn = CONNECTION_OK ->
  PgConnection.valid c = true ->
  PgConnection.validate c = ((true, c), []).
Proof.
  intros Hc Hs Hv. unfold PgConnection.validate, errorMessage.
  rewrite Hv, Hc, Hs. destruct c as [h m]. simpl in *.
  unfold PgConnection.valid in Hv. simpl in Hv. subst h.
  destruct m; [reflexivity | discriminate].
Qed.

Lemma errorMessage_bad (conn_ : option PGconn) :
  match conn_ with
  | Some conn => PQstatus conn <> CONNECTION_OK
  | None => True
  end ->
  exists message : QString,
    QString_isEmpty message = false
    /\ errorMessage conn_ = (message, [EvWarning message]).
Proof.
  unfold errorMessage. destruct conn_ as [conn|]; intros H.
  - destruct (PQstatus conn) eqn:Es; try contradiction;
      eexists; (split; [|reflexivity]); reflexivity.
  - eexists; (split; [|reflexivity]); reflexivity.
Qed.

Lemma exec_invalid_connection (c : PgConnection.t) (sql_ : Sql.t) :
  PgConnection.valid c = false ->
  PgConnection.exec c sql_ = ((PgResult.empty, c), []).
Proof.
  intros H. unfold PgConnection.exec. rewrite (validate_invalid c H).
  reflexivity.
Qed.

End ConnectionFacts.

(** X20. An error is sticky: once [errorMessage_] is not empty,
    [validate ()] no longer asks libpq, and every [exec] returns the
    empty result at once, leaves the connection as it is, logs nothing
    and submits nothing. *)
Theorem connection_error_is_sticky :
  forall (pq : Libpq) (pqc : LibpqConnection pq)
         (c : PgConnection.t) (sql_ : Sql.t),
    PgConnection.valid c = false ->
    PgConnection.validate c = ((false, c), [])
    /\ PgConnection.exec c sql_ = ((PgResult.empty, c), []).
Proof.
  intros pq pqc c sql_ H. split.
  - apply validate_invalid. exact H.
  - apply exec_invalid_connection. exact H.
Qed.

Lemma connection_error_is_sticky_witness :
  PgConnection.exec (pqc := pqc_ok)
    connection_failed sql_insert_bound
  = ((PgResult.empty, connection_failed), []).
Proof.
  apply (proj2 (connection_error_is_sticky pq_const pqc_ok
                  connection_failed
                  sql_insert_bound eq_refl)).
Defined.

(** X21. Whenever the free [exec] returns the null handle on a healthy
    connection (the command is not valid, libpq gives no result, or the
    result has a failure status), [PgConnection::exec] returns the empty
    result and keeps the message in [errorMessage_]; the connection is
    then not valid, and every later [exec] on it does nothing. *)
Theorem failed_exec_disables_connection :
  forall (pq : Libpq) (pqc : LibpqConnection pq)
         (c : PgConnection.t) (conn : PGconn) (sql_ : Sql.t),
    PgConnection.conn_ c = Some conn ->
    PQstatus conn = CONNECTION_OK ->
    PgConnection.valid c = true ->
    fst (result_of (exec (Some conn) sql_ (@Some QString EmptyString))) = None ->
    let c' := snd (result_of (PgConnection.exec c sql_)) in
    fst (result_of (PgConnection.exec c sql_)) = PgResult.empty
    /\ PgConnection.conn_ c' = Some conn
    /\ snd (result_of (exec (Some conn) sql_ (@Some QString EmptyString)))
       = Some (PgConnection.errorMessage_ c')
    /\ PgConnection.valid c' = false
    /\ forall later : Sql.t,
         PgConnection.exec c' later = ((PgResult.empty, c'), []).
Proof.
  intros pq pqc c conn sql_ Hc Hs Hv Hnone c'. subst c'.
  assert (Hm : PgConnection.errorMessage_ c = EmptyString).
  { unfold PgConnection.valid in Hv.
    destruct (PgConnection.errorMessage_ c); [reflexivity | discriminate]. }
  pose proof (exec_outcome_cases (Some conn) sql_ (@Some QString EmptyString)) as Hout.
  unfold PgConnection.exec. rewrite (validate_ok c conn Hc Hs Hv), bind_nil.
  cbv beta iota. unfold free_exec. rewrite Hc, Hm.
  destruct (exec (Some conn) sql_ (@Some QString EmptyString)) as [[h e] tr] eqn:E.
  simpl in Hnone. subst h. simpl in Hout.
  destruct Hout as (message & Hne & He & _). subst e.
  unfold bind, ret, result_of. simpl.
  assert (Hinv : PgConnection.valid (PgConnection.mk (Some conn) message) = false)
    by exact Hne.
  repeat split; try assumption.
  intros later. apply exec_invalid_connection. exact Hinv.
Qed.

Lemma failed_exec_disables_connection_witness :
  PgConnection.valid
    (snd (result_of
            (PgConnection.exec (pqc := pqc_ok)
               connection_fresh sql_insert)))
  = false.
Proof.
  destruct (failed_exec_disables_connection pq_const pqc_ok
              connection_fresh conn_sample sql_insert
              eq_refl eq_refl eq_refl eq_refl) as (_ & _ & _ & H & _).
  exact H.
Defined.

(** X22. On a healthy connection, a command for which the free [exec]
    returns a handle gives the result built from that handle, and the
    connection stays as it was, still valid. *)
Theorem successful_exec_keeps_connection :
  forall (pq : Libpq) (pqc : LibpqConnection pq)
         (c : PgConnection.t) (conn : PGconn) (sql_ : Sql.t) (r : PGresult),
    PgConnection.conn_ c = Some conn ->
    PQstatus conn = CONNECTION_OK ->
    PgConnection.valid c = true ->
    fst (result_of (exec (Some conn) sql_ (@Some QString EmptyString))) = Some r ->
    result_of (PgConnection.exec c sql_)
    = (result_of (PgResult.make (Some r)), c)
    /\ existsb is_submission (trace_of (PgConnection.exec c sql_)) = true.
Proof.
  intros pq pqc c conn sql_ r Hc Hs Hv Hsome.
  assert (Hm : PgConnection.errorMessage_ c = EmptyString).
  { unfold PgConnection.valid in Hv.
    destruct (PgConnection.errorMessage_ c); [reflexivity | discriminate]. }
  pose proof (exec_outcome_cases (Some conn) sql_ (@Some QString EmptyString))
    as Hout.
  rewrite Hsome in Hout. destruct Hout as (Hvalid & _ & He & _).
  destruct (exec_valid_trace (Some conn) sql_ (@Some QString EmptyString) Hvalid)
    as (sub & rest & Ht & Hsub).
  unfold PgConnection.exec. rewrite (validate_ok c conn Hc Hs Hv), bind_nil.
  cbv beta iota. unfold free_exec. rewrite Hc, Hm.
  rewrite result_of_bind, trace_of_bind, Ht.
  destruct (result_of (exec (Some conn) sql_ (@Some QString EmptyString)))
    as [h e].
  cbn [fst snd] in Hsome, He. subst h e. cbv beta iota.
  rewrite result_of_bind. cbn [ret result_of fst].
  split.
  - f_equal. destruct c as [h m]. simpl in *. subst. reflexivity.
  - cbn [app existsb is_submission]. rewrite Hsub. apply orb_true_r.
Qed.

Lemma successful_exec_keeps_connection_witness :
  result_of
    (PgConnection.exec (pqc := pqc_ok)
       connection_fresh sql_insert_bound)
  = (result_1x2, connection_fresh).
Proof.
  apply (proj1 (successful_exec_keeps_connection pq_const pqc_ok
                  connection_fresh conn_sample sql_insert_bound
                  res_1x2 eq_refl eq_refl eq_refl eq_refl)).
Defined.

(** X23. A connection without a handle, or whose status is not
    "connection ok", fails its first [exec]: the message is logged as a
    warning and kept, nothing is submitted, the empty result is
    returned, and the connection is not valid afterwards. *)
Theorem exec_on_bad_connection :
  forall (pq : Libpq) (pqc : LibpqConnection pq)
         (c : PgConnection.t) (sql_ : Sql.t),
    PgConnection.valid c = true ->
    match PgConnection.conn_ c with
    | Some conn => PQstatus conn <> CONNECTION_OK
    | None => True
    end ->
    exists message : QString,
      PgConnection.exec c sql_
      = ((PgResult.empty, PgConnection.mk (PgConnection.conn_ c) message),
         [EvWarning message])
      /\ QString_isEmpty message = false
      /\ (PgConnection.conn_ c = None ->
          message = "PgClient - invalid connection handle").
Proof.
  intros pq pqc c sql_ Hv Hbad.
  destruct (errorMessage_bad (PgConnection.conn_ c) Hbad) as (m & Hne & Hm).
  exists m. unfold PgConnection.exec, PgConnection.validate.
  rewrite Hv, Hm. unfold bind, ret. simpl.
  unfold PgConnection.valid. simpl. rewrite Hne.
  repeat split; try assumption.
  intros Hnull. rewrite Hnull in Hm. unfold errorMessage in Hm. simpl in Hm.
  unfold bind, ret, qWarning, emit in Hm. simpl in Hm. congruence.
Qed.

Lemma exec_on_bad_connection_witness :
  exists message : QString,
    PgConnection.exec (pqc := pqc_ok) (@PgConnection.empty pq_const)
      sql_insert_bound
    = ((PgResult.empty, PgConnection.mk None message), [EvWarning message])
    /\ QString_isEmpty message = false
    /\ (PgConnection.conn_ (@PgConnection.empty pq_const) = None ->
        message = "PgClient - invalid connection handle").
Proof.
  apply (exec_on_bad_connection pq_const pqc_ok (@PgConnection.empty pq_const)
           sql_insert_bound eq_refl I).
Defined.

(** X24. The connecting constructor keeps the handle [PQconnectdb]
    gives; the connection is valid exactly when there is a handle whose
    status is "connection ok", and only then is the client encoding set.
    A connection that is not valid has logged its message and executes
    nothing. *)
Theorem connect_valid_iff :
  forall (qt : QtRuntime) (pq : Libpq) (pqc : LibpqConnection pq)
         (conStr : QString),
    let c := result_of (PgConnection.connect conStr) in
    PgConnection.conn_ c = PQconnectdb (QString_toLocal8Bit conStr)
    /\ PgConnection.valid c
       = match PQconnectdb (QString_toLocal8Bit conStr) with
         | Some conn =>
             match PQstatus conn with CONNECTION_OK => true | _ => false end
         | None => false
         end
    /\ (if PgConnection.valid c
        then True
        else trace_of (PgConnection.connect conStr)
             = [EvWarning (PgConnection.errorMessage_ c)]
             /\ forall sql_ : Sql.t,
                  PgConnection.exec c sql_ = ((PgResult.empty, c), [])).
Proof.
  intros qt pq pqc conStr c. subst c.
  unfold PgConnection.connect, PgConnection.validate, errorMessage.
  change (PgConnection.valid (PgConnection.mk ?h EmptyString)) with true.
  cbv iota.
  destruct (PQconnectdb (QString_toLocal8Bit conStr)) as [conn|] eqn:Ec; simpl.
  - destruct (PQstatus conn) eqn:Es; simpl.
    1: { destruct (PQsetClientEncoding conn "WIN1251" =? 0); simpl; repeat split. }
    all: do 3 (split; [reflexivity|]);
      intros sql_; apply exec_invalid_connection; reflexivity.
  - do 3 (split; [reflexivity|]).
    intros sql_. apply exec_invalid_connection. reflexivity.
Qed.

(* ================================================================= *)
(** * Payloads *)

Lemma until_nul_id (l : list byte) :
  Forall (fun b => b <> x00) l -> until_nul l = l.
Proof.
  induction 1 as [|b l Hb _ IH]; [reflexivity|]. simpl.
  destruct (Byte.eqb b x00) eqn:E.
  - apply byte_eqb_eq in E. contradiction.
  - now rewrite IH.
Qed.

Lemma digits_hold_no_nul (d : Decimal.uint) :
  Forall (fun b => b <> x00) (bytes (NilEmpty.string_of_uint d)).
Proof.
  unfold bytes, list_byte_of_string.
  induction d; simpl; constructor; (discriminate || assumption).
Qed.

Lemma decimal_holds_no_nul (d : Decimal.uint) :
  Forall (fun b => b <> x00) (bytes (NilZero.string_of_uint d)).
Proof.
  destruct d; try exact (digits_hold_no_nul _).
  repeat constructor. discriminate.
Qed.

Lemma bytes_cons (c : ascii) (s : string) :
  bytes (String c s) = byte_of_ascii c :: bytes s.
Proof. reflexivity. Qed.

Lemma std_to_string_holds_no_nul (n : Z) :
  Forall (fun b => b <> x00) (std_to_string n).
Proof.
  unfold std_to_string.
  destruct n as [|p|p]; cbn [Z.to_int NilZero.string_of_int].
  - repeat constructor. discriminate.
  - apply decimal_holds_no_nul.
  - rewrite bytes_cons. constructor; [discriminate | apply decimal_holds_no_nul].
Qed.

Section PayloadFacts.
Context {qt : QtRuntime}.

(** X25. A number is always accepted: [arg] appends its decimal text
    ([std::to_string]) with the text format and logs nothing.  A
    [std::string] goes through [c_str ()], so its payload ends before the
    first NUL byte, and it is dropped when it starts with one; a byte
    array keeps every byte and gets the binary format. *)
Theorem arg_payloads :
  forall (p : SqlParameterList.t),
    (forall n : Z,
       SqlParameterList.arg p (SqlParameterList.ArgNumber n)
       = (SqlParameterList.push p (std_to_string n) 0, []))
    /\ (forall s : list byte,
          result_of (SqlParameterList.arg p (SqlParameterList.ArgStdString s))
          = match until_nul s with
            | [] => p
            | _ :: _ => SqlParameterList.push p (until_nul s) 0
            end)
    /\ (forall d : QByteArray,
          result_of (SqlParameterList.arg p (SqlParameterList.ArgByteArray d))
          = match d with
            | [] => p
            | _ :: _ => SqlParameterList.push p d 1
            end).
Proof.
  intros p. split; [|split].
  - intros n. simpl.
    unfold SqlParameterList.arg_number, SqlParameterList.arg_string,
      SqlParameterList.arg_cstr.
    rewrite std_to_string_not_empty. simpl.
    rewrite (until_nul_id _ (std_to_string_holds_no_nul n)). reflexivity.
  - intros s. simpl.
    unfold SqlParameterList.arg_string, SqlParameterList.arg_cstr, c_str.
    destruct s as [|c s]; [reflexivity|]. simpl.
    destruct (Byte.eqb c x00); reflexivity.
  - intros d. destruct d; reflexivity.
Qed.

End PayloadFacts.
